(** * CHEMICKE_PRVKY: the query, aggregation and export operations of app.py

    A shallow embedding of [find_group], [search_element],
    [calculate_average_mass] and [export_to_json] from [src/app.py], and the
    properties of them that the specification states; then the rest of the
    file, the loaders, [display_element], the two report generators and the
    menu loop of [main], with the properties the code itself shows.

    Python values are modelled as follows.
    - [str] is a Rocq [string] holding the UTF-8 bytes of the text; equality
      of Python strings is equality of these byte strings.
    - an element (a [dict] from field name to text, as [csv.DictReader]
      builds it from a record with as many cells as there are field names)
      is a [gmap string string]; a missing key is a [None] lookup.  The
      order in which a dict yields its keys is not part of the map: where
      it matters it is given apart, as a list of the keys.
    - the element collection is a mutable list of dict objects.  It lives in
      the [world] and every position is an object of its own (one fresh dict
      per CSV row); a reference to the i-th object is [Elem i].
    - [float] is IEEE-754 binary64, as [spec_float] with precision 53 and
      maximal exponent 1024.
    - [print], [input] and [open(..., 'w')] act on the [world]: the chunks
      written to standard output, the pending lines of standard input and
      the files written.
    - a raised exception is the [Raise] outcome and keeps the effects made
      before it. *)

From Stdlib Require Import ZArith QArith Ascii String List Lia.
From Stdlib Require Import Floats.SpecFloat.
From stdpp Require Import base gmap strings list pretty.

Local Open Scope string_scope.
Local Open Scope Z_scope.
Local Open Scope list_scope.

(** ** Text *)

Module Text.

(** The newline character of Python's ["\n"]. *)
Definition nl : string := String "010"%char EmptyString.

Definition explode (s : string) : list ascii := list_ascii_of_string s.
Definition implode (l : list ascii) : string := string_of_list_ascii l.

Definition code (c : ascii) : N := N_of_ascii c.

(** [str.isspace] on the ASCII range: tab, line feed, vertical tab, form
    feed, carriage return, the separators 0x1c to 0x1f and the space. *)
Definition isspace (c : ascii) : bool :=
  let n := code c in
  ((9 <=? n) && (n <=? 13) || (28 <=? n) && (n <=? 32))%N.

(** The whitespace characters outside ASCII, by their UTF-8 bytes [a b]
    or [a b c]: U+0085, U+00A0; U+1680, U+2000 to U+200A, U+2028, U+2029,
    U+202F, U+205F and U+3000. *)
Definition isspace2 (a b : ascii) : bool :=
  ((code a =? 194) && ((code b =? 133) || (code b =? 160)))%N.

Definition isspace3 (a b c : ascii) : bool :=
  ((code a =? 225) && (code b =? 154) && (code c =? 128)
   || (code a =? 226) && (code b =? 128)
      && ((128 <=? code c) && (code c <=? 138)
          || (code c =? 168) || (code c =? 169) || (code c =? 175))
   || (code a =? 226) && (code b =? 129) && (code c =? 159)
   || (code a =? 227) && (code b =? 128) && (code c =? 128))%N.

(** Whitespace removed from the front of the text. *)
Fixpoint lstrip_chars (l : list ascii) : list ascii :=
  match l with
  | a :: l1 =>
      if isspace a then lstrip_chars l1
      else
        match l1 with
        | b :: l2 =>
            if isspace2 a b then lstrip_chars l2
            else
              match l2 with
              | c :: l3 => if isspace3 a b c then lstrip_chars l3 else l
              | [] => l
              end
        | [] => l
        end
  | [] => []
  end.

(** Whitespace removed from the end of the text, which is given with its
    bytes in reverse order. *)
Fixpoint rstrip_rev (l : list ascii) : list ascii :=
  match l with
  | c :: l1 =>
      if isspace c then rstrip_rev l1
      else
        match l1 with
        | b :: l2 =>
            if isspace2 b c then rstrip_rev l2
            else
              match l2 with
              | a :: l3 => if isspace3 a b c then rstrip_rev l3 else l
              | [] => l
              end
        | [] => l
        end
  | [] => []
  end.

(** [s.strip()]: leading and trailing whitespace removed. *)
Definition strip (s : string) : string :=
  implode (rev (rstrip_rev (rev (lstrip_chars (explode s))))).

(** ASCII lower-casing, used for the case-insensitive float literals. *)
Definition lower (c : ascii) : ascii :=
  let n := code c in
  if ((65 <=? n) && (n <=? 90))%N then ascii_of_N (n + 32) else c.

End Text.

(** ** Binary64 floats: [float(...)], [statistics.mean], [format(x, ".2f")] *)

Module Float.

Definition pyfloat : Type := spec_float.

Definition prec : Z := 53.
Definition emax : Z := 1024.

Definition zero : pyfloat := S754_zero false.

(** The binary64 number nearest to [p / q] (ties to even), with sign [s]:
    the correctly rounded quotient of two integers. *)
Definition of_ratio (s : bool) (p q : positive) : pyfloat :=
  SFdiv prec emax (S754_finite s p 0) (S754_finite false q 0).

(** The binary64 number nearest to the integer ratio [n / d]. *)
Definition of_Z_ratio (n : Z) (d : positive) : pyfloat :=
  match n with
  | Z0 => zero
  | Zpos p => of_ratio false p d
  | Zneg p => of_ratio true p d
  end.

(** *** Parsing: the builtin [float(str)] on ASCII text

    The model covers ASCII text (the builtin also takes the decimal digits
    and spaces of other scripts).  After stripping the C whitespace (tab to
    carriage return, and the space) the text is
    [[sign] (inf | infinity | nan | number [exponent])], with
    [number ::= [digitpart] "." digitpart | digitpart ["."]],
    [exponent ::= ("e" | "E") [sign] digitpart] and
    [digitpart ::= digit (["_"] digit)*]; the words are matched without
    regard to case.  Any other ASCII text is a [ValueError], here [None].
    A result [Some x] is what the builtin returns, for only ASCII text has
    one; a result [None] is the builtin's [ValueError] when the text is
    ASCII, and says nothing of the builtin on other text. *)

Definition digit_of (c : ascii) : option Z :=
  let n := Text.code c in
  if ((48 <=? n) && (n <=? 57))%N then Some (Z.of_N n - 48) else None.

(** The rest of a digitpart after its first digit: [acc] is the number
    read so far, [cnt] the count of digits read. *)
Fixpoint digits_rest (acc : Z) (cnt : nat) (l : list ascii)
  : Z * nat * list ascii :=
  match l with
  | c :: l' =>
      match digit_of c with
      | Some d => digits_rest (10 * acc + d) (S cnt) l'
      | None =>
          if Ascii.eqb c "_" then
            match l' with
            | c' :: l'' =>
                match digit_of c' with
                | Some d => digits_rest (10 * acc + d) (S cnt) l''
                | None => (acc, cnt, l)
                end
            | [] => (acc, cnt, l)
            end
          else (acc, cnt, l)
      end
  | [] => (acc, cnt, l)
  end.

(** A digitpart continuing the number [acc]: at least one digit. *)
Definition digitpart (acc : Z) (l : list ascii)
  : option (Z * nat * list ascii) :=
  match l with
  | c :: l' =>
      match digit_of c with
      | Some d => Some (digits_rest (10 * acc + d) 1 l')
      | None => None
      end
  | [] => None
  end.

Definition sign_of (l : list ascii) : bool * list ascii :=
  match l with
  | c :: l' =>
      if Ascii.eqb c "-" then (true, l')
      else if Ascii.eqb c "+" then (false, l')
      else (false, l)
  | [] => (false, l)
  end.

(** The mantissa digits and the count of digits after the point. *)
Definition number (l : list ascii) : option (Z * nat * list ascii) :=
  match l with
  | c :: l' =>
      if Ascii.eqb c "." then
        match digitpart 0 l' with
        | Some (m, k, r) => Some (m, k, r)
        | None => None
        end
      else
        match digitpart 0 l with
        | Some (m, _, r) =>
            match r with
            | c' :: r' =>
                if Ascii.eqb c' "." then
                  match digitpart m r' with
                  | Some (m', k, r'') => Some (m', k, r'')
                  | None => Some (m, O, r')
                  end
                else Some (m, O, r)
            | [] => Some (m, O, r)
            end
        | None => None
        end
  | [] => None
  end.

(** The optional exponent; what follows it must be the end of the text. *)
Definition exponent (l : list ascii) : option Z :=
  match l with
  | [] => Some 0
  | c :: l' =>
      if Ascii.eqb (Text.lower c) "e" then
        let '(s, l'') := sign_of l' in
        match digitpart 0 l'' with
        | Some (e, _, []) => Some (if s then - e else e)
        | _ => None
        end
      else None
  end.

(** [m * 10 ^ e] rounded to binary64. *)
Definition of_decimal (s : bool) (m : Z) (e : Z) : pyfloat :=
  match m with
  | Zpos p =>
      match e with
      | Zneg k => of_ratio s p (Pos.pow 10 k)
      | Z0 => of_ratio s p 1
      | Zpos k => of_ratio s (p * Pos.pow 10 k) 1
      end
  | _ => S754_zero s
  end.

Definition c_isspace (c : ascii) : bool :=
  let n := Text.code c in
  ((9 <=? n) && (n <=? 13) || (n =? 32))%N.

Fixpoint skip_spaces (l : list ascii) : list ascii :=
  match l with
  | c :: l' => if c_isspace c then skip_spaces l' else l
  | [] => []
  end.

Definition float_of_string (text : string) : option pyfloat :=
  let body := rev (skip_spaces (rev (skip_spaces (Text.explode text)))) in
  let '(s, l) := sign_of body in
  let word := Text.implode (map Text.lower l) in
  if String.eqb word "inf" || String.eqb word "infinity" then
    Some (S754_infinity s)
  else if String.eqb word "nan" then Some S754_nan
  else
    match number l with
    | Some (m, k, r) =>
        match exponent r with
        | Some e => Some (of_decimal s m (e - Z.of_nat k))
        | None => None
        end
    | None => None
    end.

(** *** [statistics.mean] on floats

    Every finite float is taken as the exact ratio it denotes, the ratios
    are added exactly, the sum is divided by the count and the quotient is
    rounded once to binary64.  When the data holds an infinity or a NaN
    the result is instead the float sum of those entries.  Empty data is a
    [StatisticsError], here [None]. *)

Definition exact_ratio (x : pyfloat) : option Q :=
  match x with
  | S754_zero _ => Some (0 # 1)
  | S754_finite s m e =>
      let n := if s then Zneg m else Zpos m in
      Some (match e with
            | Zneg k => n # Pos.pow 2 k
            | _ => (n * 2 ^ e) # 1
            end)
  | _ => None
  end.

Definition is_finite (x : pyfloat) : bool :=
  match exact_ratio x with Some _ => true | None => false end.

(** The exact sum of the finite entries. *)
Definition exact_sum (data : list pyfloat) : Q :=
  fold_right Qplus (0 # 1) (omap exact_ratio data).

Definition of_Q (q : Q) : pyfloat := of_Z_ratio (Qnum q) (Qden q).

(** The arithmetic mean of the exact values, as a rational number. *)
Definition exact_mean (data : list pyfloat) : Q :=
  Qred (exact_sum data / (Z.of_nat (length data) # 1)).

Definition mean (data : list pyfloat) : option pyfloat :=
  match data with
  | [] => None
  | _ :: _ =>
      match filter (fun x => is_finite x = false) data with
      | [] => Some (of_Q (exact_mean data))
      | special => Some (fold_left (SFadd prec emax) special zero)
      end
  end.

(** *** [format(x, ".2f")]: two decimals, correctly rounded, ties to even *)

Definition round_half_even (p : Z) (d : positive) : Z :=
  let fl := p / Zpos d in
  match (2 * (p mod Zpos d) ?= Zpos d) with
  | Lt => fl
  | Gt => fl + 1
  | Eq => if Z.even fl then fl else fl + 1
  end.

Definition two_digits (n : Z) : string :=
  if n <? 10 then "0" +:+ pretty n else pretty n.

Definition format_2f (x : pyfloat) : string :=
  let sign (s : bool) := if s then "-" else "" in
  match x with
  | S754_nan => "nan"
  | S754_infinity s => sign s +:+ "inf"
  | S754_zero s => sign s +:+ "0.00"
  | S754_finite s m e =>
      let q := match e with
               | Zneg k => (100 * Zpos m) # Pos.pow 2 k
               | _ => (100 * Zpos m * 2 ^ e) # 1
               end in
      let n := round_half_even (Qnum q) (Qden q) in
      sign s +:+ pretty (n / 100) +:+ "." +:+ two_digits (n mod 100)
  end.

End Float.

(** ** The Python run-time: exceptions, the world and the monad *)

Inductive exn : Type :=
| KeyError (key : string)
| ValueError (text : string)
| StatisticsError
| EOFError.

Inductive outcome (A : Type) : Type :=
| Ok (a : A)
| Raise (e : exn).
Arguments Ok {A} a.
Arguments Raise {A} e.

(** The content of a file written by [json.dump(data, file,
    ensure_ascii=..., indent=...)]: what the call is given to serialise. *)
Inductive file_content : Type :=
| JsonDump (data : list (gmap string string)) (ensure_ascii : bool) (indent : nat).

Record world : Type := World {
  w_elements : list (gmap string string);
  w_stdout : list string;
  w_stdin : list string;
  w_files : gmap string file_content
}.

(** A reference to a dict: the i-th object of the element collection, or a
    dict object created by the call. *)
Inductive elem_ref : Type :=
| Elem (i : nat)
| NewDict (d : gmap string string).

(** The dict a reference denotes in a world. *)
Definition deref (w : world) (r : elem_ref) : option (gmap string string) :=
  match r with
  | Elem i => w_elements w !! i
  | NewDict d => Some d
  end.

Definition M (A : Type) : Type := world -> outcome A * world.

#[global] Instance M_ret : MRet M := fun A a w => (Ok a, w).
#[global] Instance M_bind : MBind M := fun A B f m w =>
  match m w with
  | (Ok a, w') => f a w'
  | (Raise e, w') => (Raise e, w')
  end.

Definition raise {A : Type} (e : exn) : M A := fun w => (Raise e, w).

Definition write_stdout (chunk : string) (w : world) : world :=
  World (w_elements w) (w_stdout w ++ [chunk]) (w_stdin w) (w_files w).

(** [print(text)]: the text and a newline. *)
Definition print (text : string) : M unit :=
  fun w => (Ok tt, write_stdout (text +:+ Text.nl) w).

(** [input(prompt)]: the prompt is written, one line is read; at the end of
    the input it raises [EOFError]. *)
Definition input (prompt : string) : M string :=
  fun w =>
    match w_stdin w with
    | line :: rest =>
        (Ok line, World (w_elements w) (w_stdout w ++ [prompt]) rest (w_files w))
    | [] => (Raise EOFError, write_stdout prompt w)
    end.

(** The element collection the functions are handed. *)
Definition get_elements : M (list (gmap string string)) :=
  fun w => (Ok (w_elements w), w).

(** [d[key]] *)
Definition getitem (d : gmap string string) (key : string) : M string :=
  match d !! key with
  | Some v => mret v
  | None => raise (KeyError key)
  end.

(** [elements[i][key] = value]: the i-th dict object is updated in place. *)
Definition setitem (i : nat) (key value : string) : M unit :=
  fun w =>
    (Ok tt, World (alter (insert key value) i (w_elements w))
                  (w_stdout w) (w_stdin w) (w_files w)).

(** [float(text)] *)
Definition py_float (text : string) : M Float.pyfloat :=
  match Float.float_of_string text with
  | Some x => mret x
  | None => raise (ValueError text)
  end.

(** [open(path, 'w')], the write and the close. *)
Definition write_file (path : string) (content : file_content) : M unit :=
  fun w =>
    (Ok tt, World (w_elements w) (w_stdout w) (w_stdin w)
                  (<[path := content]> (w_files w))).

(** The truth value of [None] or a string. *)
Definition truthy (o : option string) : bool :=
  match o with
  | Some s => negb (String.eqb s "")
  | None => false
  end.

(** ** The texts the functions print *)

Module Msg.
Definition search_result : string := Text.nl +:+ "--- Výsledek hledání ---".
Definition not_found : string :=
  Text.nl +:+ "Prvek nebyl nalezen." +:+ Text.nl.
Definition both_given : string :=
  Text.nl +:+ "Chyba: Zadejte buď skupinu, nebo periodu, ne obojí." +:+ Text.nl.
Definition none_given : string :=
  Text.nl +:+ "Musíte zadat buď skupinu, nebo periodu." +:+ Text.nl.
Definition average (avg_mass : Float.pyfloat) : string :=
  Text.nl +:+ "Průměrná relativní atomová hmotnost: "
  +:+ Float.format_2f avg_mass +:+ Text.nl.
Definition nothing_to_compute : string :=
  Text.nl +:+ "Žádné prvky k výpočtu pro dané kritérium." +:+ Text.nl.
Definition enter_symbols : string :=
  Text.nl +:+ "Zadejte značky prvků, které chcete exportovat (prázdný vstup pro ukončení):".
Definition symbol_prompt : string := "Zadejte značku prvku: ".
Definition exported (file_path : string) (count : nat) : string :=
  Text.nl +:+ "JSON soubor '" +:+ file_path +:+ "' byl úspěšně exportován s "
  +:+ pretty count +:+ " prvky." +:+ Text.nl.
End Msg.

(** ** The group table *)

(** A group of the table, as [json.load] gives it: an object with the label
    under ["cs"] and the member symbols under ["elements"].  The table is the
    list of these objects; the empty table also stands for the empty dict
    that [load_groups] returns when the file is missing, over which the loop
    of [find_group] makes no turn either. *)
Record group : Type := Group { cs : string; elements : list string }.

Definition unknown_group : string := "Neznámá skupina".

(** [find_group(groups, symbol)] *)
Fixpoint find_group (groups : list group) (symbol : string) : string :=
  match groups with
  | g :: groups' =>
      if bool_decide (symbol ∈ elements g) then cs g
      else find_group groups' symbol
  | [] => unknown_group
  end.

(** ** [search_element(elements, groups, criterion, value)] *)

(** The body of the loop for the objects from position [i] on. *)
Fixpoint search_from (groups : list group) (criterion value : string)
    (i : nat) (rest : list (gmap string string)) : M elem_ref :=
  match rest with
  | element :: rest' =>
      if bool_decide (element !! criterion = Some value) then
        print Msg.search_result;;
        (if negb (truthy (element !! "Group")) then
           symbol ← getitem element "Symbol";
           setitem i "Group" (find_group groups symbol)
         else mret tt);;
        mret (Elem i)
      else search_from groups criterion value (S i) rest'
  | [] =>
      print Msg.not_found;;
      mret (NewDict ∅)
  end.

Definition search_element (groups : list group) (criterion value : string)
    : M elem_ref :=
  elements ← get_elements;
  search_from groups criterion value 0 elements.

(** ** [calculate_average_mass(elements, group=None, period=None)] *)

(** [[float(element["AtomicMass"]) for element in elements
      if element[field] == wanted]] *)
Fixpoint masses_where (field : string) (wanted : option string)
    (elements : list (gmap string string)) : M (list Float.pyfloat) :=
  match elements with
  | element :: rest =>
      v ← getitem element field;
      if bool_decide (Some v = wanted) then
        text ← getitem element "AtomicMass";
        x ← py_float text;
        xs ← masses_where field wanted rest;
        mret (x :: xs)
      else masses_where field wanted rest
  | [] => mret []
  end.

(** The part after the filter. *)
Definition report_average (filtered_elements : list Float.pyfloat)
    : M Float.pyfloat :=
  match filtered_elements with
  | _ :: _ =>
      match Float.mean filtered_elements with
      | Some avg_mass =>
          print (Msg.average avg_mass);;
          mret avg_mass
      | None => raise StatisticsError
      end
  | [] =>
      print Msg.nothing_to_compute;;
      mret Float.zero
  end.

Definition calculate_average_mass (group period : option string)
    : M Float.pyfloat :=
  if truthy group && truthy period then
    print Msg.both_given;;
    mret Float.zero
  else if truthy group then
    elements ← get_elements;
    filtered_elements ← masses_where "Group" group elements;
    report_average filtered_elements
  else if truthy period then
    elements ← get_elements;
    filtered_elements ← masses_where "Period" period elements;
    report_average filtered_elements
  else
    print Msg.none_given;;
    mret Float.zero.

(** ** [export_to_json(elements, file_path)] *)

(** The [while True] loop that reads the symbols: every turn writes the
    prompt and reads a line with [input]; an empty line, once stripped, ends
    it.  The loop runs over the pending input lines and gives back the
    outcome, the count of prompts written and the lines left;
    [collect_symbols_loop] below is the equation of the loop. *)
Fixpoint read_symbols (selected_symbols : list string) (prompts : nat)
    (pending : list string) : outcome (list string) * nat * list string :=
  match pending with
  | line :: pending' =>
      let symbol := Text.strip line in
      if String.eqb symbol "" then (Ok selected_symbols, S prompts, pending')
      else read_symbols (selected_symbols ++ [symbol]) (S prompts) pending'
  | [] => (Raise EOFError, S prompts, [])
  end.

Definition collect_symbols (selected_symbols : list string) : M (list string) :=
  fun w =>
    let '(r, prompts, rest) := read_symbols selected_symbols 0 (w_stdin w) in
    (r, World (w_elements w) (w_stdout w ++ replicate prompts Msg.symbol_prompt)
              rest (w_files w)).

(** [[element for element in elements
      if element["Symbol"] in selected_symbols]] *)
Fixpoint select_symbols (selected_symbols : list string)
    (elements : list (gmap string string)) : M (list (gmap string string)) :=
  match elements with
  | element :: rest =>
      symbol ← getitem element "Symbol";
      if bool_decide (symbol ∈ selected_symbols) then
        chosen ← select_symbols selected_symbols rest;
        mret (element :: chosen)
      else select_symbols selected_symbols rest
  | [] => mret []
  end.

Definition export_to_json (file_path : string) : M unit :=
  print Msg.enter_symbols;;
  selected_symbols ← collect_symbols [];
  elements ← get_elements;
  selected_elements ← select_symbols selected_symbols elements;
  write_file file_path (JsonDump selected_elements false 4);;
  print (Msg.exported file_path (length selected_elements)).

Definition default_json_path : string := "selected_elements.json".

(** * The rest of app.py: loaders, display, reports and the menu *)

(** ** The texts *)

Module Txt.
Definition csv_missing : string :=
  Text.nl +:+ "CSV soubor nenalezen." +:+ Text.nl.
Definition json_missing : string :=
  Text.nl +:+ "JSON soubor nenalezen." +:+ Text.nl.
Definition menu : string :=
  Text.nl +:+ "    " +:+ Text.nl
  +:+ "===================================================" +:+ Text.nl
  +:+ Text.nl +:+ "                MENU - CHEMICKÉ PRVKY" +:+ Text.nl
  +:+ "    " +:+ Text.nl
  +:+ "---------------------------------------------------" +:+ Text.nl
  +:+ Text.nl +:+ "    1. Vyhledávání prvků" +:+ Text.nl
  +:+ "    2. Zobrazit vlastnosti prvku" +:+ Text.nl
  +:+ "    3. Výpočet průměrné atomové hmotnosti" +:+ Text.nl
  +:+ "    4. Generovat HTML soubor (přehled prvků)" +:+ Text.nl
  +:+ "    5. Exportovat data do JSON (vybrané prvky)" +:+ Text.nl
  +:+ "    6. Generovat Markdown přehled (skupina prvků)" +:+ Text.nl
  +:+ "    0. Ukončit" +:+ Text.nl +:+ "    " +:+ Text.nl
  +:+ "===================================================" +:+ Text.nl
  +:+ Text.nl +:+ "    ".
Definition choose : string := "Vyberte možnost: ".
Definition properties_head : string := Text.nl +:+ "--- Vlastnosti prvku ---".
Definition properties_foot : string :=
  Text.nl +:+ "--- Konec výpisu ---" +:+ Text.nl.
Definition no_element : string := Text.nl +:+ "Prvek nenalezen." +:+ Text.nl.
Definition html_head : string :=
  "<html>" +:+ Text.nl +:+ "<body>" +:+ Text.nl
  +:+ "<h1>Periodic Table of Elements</h1>" +:+ Text.nl
  +:+ "<table border='1'>" +:+ Text.nl +:+ "<tr>" +:+ Text.nl
  +:+ "<th>Značka</th>" +:+ Text.nl +:+ "<th>Název</th>" +:+ Text.nl
  +:+ "<th>Protonové číslo</th>" +:+ Text.nl +:+ "</tr>" +:+ Text.nl.
Definition html_row (symbol name number : string) : string :=
  "<tr>" +:+ Text.nl +:+ "<td>" +:+ symbol +:+ "</td>" +:+ Text.nl
  +:+ "<td>" +:+ name +:+ "</td>" +:+ Text.nl
  +:+ "<td>" +:+ number +:+ "</td>" +:+ Text.nl +:+ "</tr>".
Definition html_foot : string := "</table></body></html>".
Definition html_written (file_path : string) : string :=
  Text.nl +:+ "HTML soubor '" +:+ file_path +:+ "' byl vygenerován." +:+ Text.nl.
Definition markdown_head : string :=
  "# Přehled chemických prvků" +:+ Text.nl +:+ Text.nl.
Definition markdown_title (symbol name : string) : string :=
  "## " +:+ symbol +:+ " (" +:+ name +:+ ")" +:+ Text.nl.
Definition markdown_number (number : string) : string :=
  "- Protonové číslo: " +:+ number +:+ Text.nl.
Definition markdown_mass (mass : string) : string :=
  "- Relativní atomová hmotnost: " +:+ mass +:+ Text.nl +:+ Text.nl.
Definition markdown_written (file_path : string) : string :=
  Text.nl +:+ "Markdown soubor '" +:+ file_path +:+ "' byl vygenerován."
  +:+ Text.nl.
Definition ask_criterion : string :=
  "Zadejte kritérium (Symbol, Element (name), AtomicNumber, Group, Period): ".
Definition ask_value (criterion : string) : string :=
  "Zadejte hodnotu pro " +:+ criterion +:+ ": ".
Definition ask_symbol : string := "Zadejte značku prvku: ".
Definition ask_group_number : string :=
  "Zadejte číslo skupiny (nebo prázdné, pokud chcete zadat periodu): ".
Definition ask_period_number : string :=
  "Zadejte číslo periody (nebo prázdné, pokud jste zadali skupinu): ".
Definition both_entered : string :=
  Text.nl +:+ "Zadejte buď skupinu, nebo periodu, ne obojí." +:+ Text.nl.
Definition none_entered : string :=
  Text.nl +:+ "Musíte zadat buď skupinu, nebo periodu." +:+ Text.nl.
Definition ask_group : string := "Zadejte skupinu: ".
Definition goodbye : string := Text.nl +:+ "Ukončuji program." +:+ Text.nl.
Definition invalid_choice : string :=
  Text.nl +:+ "Neplatná volba, zkuste to znovu." +:+ Text.nl.
Definition press_enter : string := "Stiskněte Enter pro pokračování...".
End Txt.

Definition default_html_path : string := "periodic_table.html".
Definition default_markdown_path : string := "group_overview.md".

(** ** [format(key, " <20")]: the text padded with spaces on the right *)

Module Layout.

(** A byte that continues a UTF-8 character. *)
Definition is_continuation (c : ascii) : bool :=
  ((128 <=? Text.code c) && (Text.code c <? 192))%N.

(** [len(text)]: the count of characters, not of bytes. *)
Definition length_chars (text : string) : nat :=
  length (filter (fun c => is_continuation c = false) (Text.explode text)).

Definition ljust (width : nat) (text : string) : string :=
  text +:+ Text.implode (replicate (width - length_chars text) " "%char).

End Layout.

(** ** The loaders *)

(** What [csv.reader] finds in a file: the first record, which
    [csv.DictReader] takes for the field names, and the records after it.
    A record that is not blank has as many cells as there are field names
    ([csv_regular]).  For a longer record [csv.DictReader] keeps the cells
    beyond the names as a list under the key [None], and for a shorter one
    it gives the names left over the value [None]; an element of the
    collection holds text under text keys, so a file with such a record is
    not a [csv_file]. *)
Definition regular_record (fieldnames record : list string) : bool :=
  bool_decide (record = []) || (length record =? length fieldnames)%nat.

Record csv_file : Type := CsvFile {
  csv_fieldnames : list string;
  csv_records : list (list string);
  csv_regular : Is_true (forallb (regular_record csv_fieldnames) csv_records)
}.

(** [dict(zip(fieldnames, row))]: of two cells under one name the later
    one stays. *)
Definition dict_of_row (fieldnames row : list string) : gmap string string :=
  list_to_map (reverse (zip fieldnames row)).

(** The rows [csv.DictReader] yields, a dict each: it passes over the blank
    records. *)
Definition csv_rows (file : csv_file) : list (gmap string string) :=
  dict_of_row (csv_fieldnames file)
    <$> filter (fun record => record ≠ []) (csv_records file).

(** [load_elements(file_path)].  What [open] finds at the path is given:
    [None] when there is no such file. *)
Definition load_elements (csvfile : option csv_file)
    : M (list (gmap string string)) :=
  match csvfile with
  | Some file => mret (csv_rows file)
  | None => print Txt.csv_missing;; mret []
  end.

(** [load_groups(file_path)].  What [open] and [json.load] find at the path
    is given; without the file the result is the empty dict, which as a
    table is the empty one. *)
Definition load_groups (jsonfile : option (list group)) : M (list group) :=
  match jsonfile with
  | Some groups => mret groups
  | None => print Txt.json_missing;; mret []
  end.

(** ** [display_element(element)] *)

(** [element.items()].  A [gmap] does not keep the order in which a dict
    yields its keys, so that order is given apart, as the list [keys]. *)
Definition dict_items (keys : list string) (d : gmap string string)
    : list (string * string) :=
  omap (fun key => pair key <$> d !! key) keys.

Definition property_line (item : string * string) : string :=
  Layout.ljust 20 item.1 +:+ ": " +:+ item.2.

Fixpoint print_items (items : list (string * string)) : M unit :=
  match items with
  | item :: rest => print (property_line item);; print_items rest
  | [] => mret tt
  end.

Definition display_element (keys : list string) (element : gmap string string)
    : M unit :=
  if bool_decide (element ≠ ∅) then
    print Txt.properties_head;;
    print_items (dict_items keys element);;
    print Txt.properties_foot
  else print Txt.no_element.

(** ** Text files *)

(** The world together with the files written as text.  A path holds what
    was written to it last: [write_text] removes a JSON file of that path,
    and a JSON file hides an older text of its path (see [file_at]). *)
Record machine : Type := Machine {
  m_world : world;
  m_texts : gmap string string
}.

Definition T (A : Type) : Type := machine -> outcome A * machine.

#[global] Instance T_ret : MRet T := fun A a s => (Ok a, s).
#[global] Instance T_bind : MBind T := fun A B f m s =>
  match m s with
  | (Ok a, s') => f a s'
  | (Raise e, s') => (Raise e, s')
  end.

Definition lift {A : Type} (m : M A) : T A :=
  fun s => let '(r, w') := m (m_world s) in (r, Machine w' (m_texts s)).

(** [open(path, 'w')], [write(content)] and the close. *)
Definition write_text (path content : string) : T unit :=
  fun s =>
    let w := m_world s in
    (Ok tt,
     Machine (World (w_elements w) (w_stdout w) (w_stdin w) (delete path (w_files w)))
             (<[path := content]> (m_texts s))).

Definition file_at (s : machine) (path : string) : option (file_content + string) :=
  match w_files (m_world s) !! path with
  | Some json => Some (inl json)
  | None => inr <$> m_texts s !! path
  end.

(** ** [generate_html(elements, file_path)] *)

Fixpoint html_rows (html_content : string)
    (elements : list (gmap string string)) : M string :=
  match elements with
  | element :: rest =>
      symbol ← getitem element "Symbol";
      name ← getitem element "Element";
      number ← getitem element "AtomicNumber";
      html_rows (html_content +:+ Txt.html_row symbol name number) rest
  | [] => mret html_content
  end.

Definition generate_html (file_path : string) : T unit :=
  elements ← lift get_elements;
  html_content ← lift (html_rows Txt.html_head elements);
  write_text file_path (html_content +:+ Txt.html_foot);;
  lift (print (Txt.html_written file_path)).

(** ** [generate_markdown(elements, file_path)] *)

Fixpoint markdown_sections (md_content : string)
    (elements : list (gmap string string)) : M string :=
  match elements with
  | element :: rest =>
      symbol ← getitem element "Symbol";
      name ← getitem element "Element";
      number ← getitem element "AtomicNumber";
      mass ← getitem element "AtomicMass";
      markdown_sections
        (((md_content +:+ Txt.markdown_title symbol name)
          +:+ Txt.markdown_number number) +:+ Txt.markdown_mass mass) rest
  | [] => mret md_content
  end.

(** The list handed over is a list of its own: [main] builds it by a
    comprehension over the collection. *)
Definition generate_markdown (elements : list (gmap string string))
    (file_path : string) : T unit :=
  md_content ← lift (markdown_sections Txt.markdown_head elements);
  write_text file_path md_content;;
  lift (print (Txt.markdown_written file_path)).

(** ** [display_menu()] and [main()] *)

Definition display_menu : M string :=
  print Txt.menu;;
  input Txt.choose.

(** [elements = ...]: the list becomes the element collection. *)
Definition put_elements (els : list (gmap string string)) : M unit :=
  fun w => (Ok tt, World els (w_stdout w) (w_stdin w) (w_files w)).

(** The names of a list at their first places. *)
Fixpoint first_occurrences (keys : list string) : list string :=
  match keys with
  | key :: rest => key :: filter (fun k => k ≠ key) (first_occurrences rest)
  | [] => []
  end.

(** The keys of an element, every key once.  A dict yields its keys in the
    order in which they were first set: for a row of the CSV file that is
    the order of the field names, a repeated name at its first place, and
    [Group] comes last when [search_element] has added it.  The dicts of
    [main] have no other key ([main_covered] below); if a dict has one, it
    follows these, in no order of the program's. *)
Definition keys_in_order (fieldnames : list string)
    (element : gmap string string) : list string :=
  let listed :=
    first_occurrences
      (filter (fun key => is_Some (element !! key)) (fieldnames ++ ["Group"])) in
  listed ++ filter (fun key => key ∉ listed) (map_to_list element).*1.

(** [display_element] on what [search_element] returned. *)
Definition display_result (fieldnames : list string) (r : elem_ref) : M unit :=
  fun w =>
    let element := default ∅ (deref w r) in
    display_element (keys_in_order fieldnames element) element w.

(** [[element for element in elements if element["Group"] == group]] *)
Fixpoint elements_where (field value : string)
    (elements : list (gmap string string)) : M (list (gmap string string)) :=
  match elements with
  | element :: rest =>
      v ← getitem element field;
      if bool_decide (v = value) then
        kept ← elements_where field value rest;
        mret (element :: kept)
      else elements_where field value rest
  | [] => mret []
  end.

(** The [input] that ends every turn of the menu but the last. *)
Definition next_turn : T bool :=
  lift (input Txt.press_enter);;
  mret true.

(** The [if] chain of the loop of [main], for the choice made: [true] to go
    on with the loop, [false] after the [break]. *)
Definition main_choice (fieldnames : list string) (groups : list group)
    (choice : string) : T bool :=
  if String.eqb choice "1" then
    criterion ← lift (input Txt.ask_criterion);
    value ← lift (input (Txt.ask_value criterion));
    element ← lift (search_element groups criterion value);
    lift (display_result fieldnames element);;
    next_turn
  else if String.eqb choice "2" then
    symbol ← lift (input Txt.ask_symbol);
    element ← lift (search_element groups "Symbol" symbol);
    lift (display_result fieldnames element);;
    next_turn
  else if String.eqb choice "3" then
    group ← lift (input Txt.ask_group_number);
    period ← lift (input Txt.ask_period_number);
    let group := Text.strip group in
    let period := Text.strip period in
    (if truthy (Some group) && truthy (Some period) then
       lift (print Txt.both_entered)
     else if truthy (Some group) then
       lift (calculate_average_mass (Some group) None);; mret tt
     else if truthy (Some period) then
       lift (calculate_average_mass None (Some period));; mret tt
     else lift (print Txt.none_entered));;
    next_turn
  else if String.eqb choice "4" then
    generate_html default_html_path;;
    next_turn
  else if String.eqb choice "5" then
    lift (export_to_json default_json_path);;
    next_turn
  else if String.eqb choice "6" then
    group ← lift (input Txt.ask_group);
    elements ← lift get_elements;
    selected_elements ← lift (elements_where "Group" group elements);
    generate_markdown selected_elements default_markdown_path;;
    next_turn
  else if String.eqb choice "0" then
    lift (print Txt.goodbye);;
    mret false
  else
    lift (print Txt.invalid_choice);;
    next_turn.

(** One turn of the [while True] loop of [main]. *)
Definition main_turn (fieldnames : list string) (groups : list group) : T bool :=
  choice ← lift display_menu;
  main_choice fieldnames groups choice.

(** The loop, with the count of turns it may make: [None] when the count
    is used up before the loop has ended. *)
Fixpoint main_loop (turns : nat) (fieldnames : list string)
    (groups : list group) (s : machine) : option (outcome unit * machine) :=
  match turns with
  | S turns' =>
      match main_turn fieldnames groups s with
      | (Ok true, s') => main_loop turns' fieldnames groups s'
      | (Ok false, s') => Some (Ok tt, s')
      | (Raise e, s') => Some (Raise e, s')
      end
  | O => None
  end.

(** The field names of the rows loaded: none without the file. *)
Definition fieldnames_of (csvfile : option csv_file) : list string :=
  match csvfile with
  | Some file => csv_fieldnames file
  | None => []
  end.

(** [main()].  What the two loaders find is given.  Every turn reads a
    line, so the lines of the input bound the turns. *)
Definition main (csvfile : option csv_file)
    (jsonfile : option (list group)) (s : machine)
    : option (outcome unit * machine) :=
  match (elements ← lift (load_elements csvfile);
         lift (put_elements elements);;
         lift (load_groups jsonfile)) s with
  | (Ok groups, s') =>
      main_loop (S (length (w_stdin (m_world s'))))
        (fieldnames_of csvfile) groups s'
  | (Raise e, s') => Some (Raise e, s')
  end.

(** * Specification vocabulary *)

(** [i] is the first position of the collection whose element has the field
    [criterion] equal to [value], and [e] is the element there. *)
Definition first_match (criterion value : string)
    (els : list (gmap string string)) (i : nat) (e : gmap string string) : Prop :=
  els !! i = Some e
  ∧ e !! criterion = Some value
  ∧ ∀ j e', els !! j = Some e' -> (j < i)%nat -> e' !! criterion ≠ Some value.

(** What [search_element] does once it has met the first match [element] at
    position [i]. *)
Definition found (groups : list group) (i : nat) (element : gmap string string)
    (w : world) : outcome elem_ref * world :=
  let w1 := write_stdout (Msg.search_result +:+ Text.nl) w in
  if truthy (element !! "Group") then (Ok (Elem i), w1)
  else
    match element !! "Symbol" with
    | Some symbol =>
        (Ok (Elem i),
         World (alter (insert "Group" (find_group groups symbol)) i (w_elements w))
               (w_stdout w1) (w_stdin w) (w_files w))
    | None => (Raise (KeyError "Symbol"), w1)
    end.

(** The [Group] field of the i-th element of a world. *)
Definition group_field (w : world) (i : nat) : option string :=
  w_elements w !! i ≫= fun e => e !! "Group".

(** The fields [calculate_average_mass] reads are present. *)
Definition has_fields (e : gmap string string) : Prop :=
  is_Some (e !! "Group") ∧ is_Some (e !! "Period") ∧ is_Some (e !! "AtomicMass").

(** Exactly one of [group] and [period] is supplied: [field] is the field
    it selects by and [wanted] the value asked for. *)
Definition one_supplied (group period : option string)
    (field : string) (wanted : option string) : Prop :=
  (truthy group = true ∧ truthy period = false
   ∧ field = "Group" ∧ wanted = group)
  ∨ (truthy group = false ∧ truthy period = true
     ∧ field = "Period" ∧ wanted = period).

(** The elements whose [field] is the very string asked for, in the order
    of the collection. *)
Definition chosen (field : string) (wanted : option string)
    (els : list (gmap string string)) : list (gmap string string) :=
  filter (fun e : gmap string string => e !! field = wanted) els.

(** The [AtomicMass] of an element as a number, if it is one. *)
Definition mass_of (e : gmap string string) : option Float.pyfloat :=
  e !! "AtomicMass" ≫= Float.float_of_string.

(** The [AtomicMass] of an element is there and is not a number. *)
Definition malformed (e : gmap string string) : Prop :=
  ∃ text, e !! "AtomicMass" = Some text ∧ Float.float_of_string text = None.

(** A text of ASCII characters only.  On such a text [Float.float_of_string]
    is the builtin [float]; the builtin also takes spaces and decimal digits
    of other scripts, which the model refuses. *)
Definition ascii_text (text : string) : Prop :=
  Forall (fun c => (Text.code c < 128)%N) (Text.explode text).

(** The [AtomicMass] of an element, when it is there, is ASCII text. *)
Definition ascii_mass (e : gmap string string) : Prop :=
  ∀ text, e !! "AtomicMass" = Some text -> ascii_text text.

(** The world with another element collection. *)
Definition with_elements (els : list (gmap string string)) (w : world) : world :=
  World els (w_stdout w) (w_stdin w) (w_files w).

(** The element has a [Symbol], and it is one of the requested symbols. *)
Definition requested_symbol (requested : list string)
    (e : gmap string string) : Prop :=
  ∃ symbol, e !! "Symbol" = Some symbol ∧ symbol ∈ requested.

#[global] Instance requested_symbol_dec (requested : list string)
    (e : gmap string string) : Decision (requested_symbol requested e).
Proof.
  unfold requested_symbol. destruct (e !! "Symbol") as [symbol|].
  - destruct (decide (symbol ∈ requested)) as [Hin|Hout].
    + left. exists symbol. split; [reflexivity|exact Hin].
    + right. intros (s' & Hs' & Hin). injection Hs' as <-. exact (Hout Hin).
  - right. intros (s' & Hs' & _). discriminate Hs'.
Defined.

(** The elements whose symbol is requested, in the order of the collection. *)
Definition selected (requested : list string)
    (els : list (gmap string string)) : list (gmap string string) :=
  filter (requested_symbol requested) els.

(** Zero, an infinity or a NaN: what the float sum of infinities and NaNs,
    started from zero, can be. *)
Definition sticky (x : Float.pyfloat) : Prop :=
  x = Float.zero ∨ Float.is_finite x = false.

(** The texts of a list, one after the other. *)
Definition join (texts : list string) : string := foldr String.append "" texts.

(** The text of a field, for an element that has it. *)
Definition field_text (e : gmap string string) (key : string) : string :=
  default "" (e !! key).

(** The list names every key of the element, and each of them once: what
    the order in which a dict yields its keys is known to be. *)
Definition enumerates (keys : list string) (e : gmap string string) : Prop :=
  NoDup keys ∧ ∀ key, key ∈ keys ↔ is_Some (e !! key).

(** The lines [display_element] prints for the fields of an element, taken
    in the order [keys]. *)
Definition property_lines (e : gmap string string) (keys : list string)
    : list string :=
  (fun key => property_line (key, field_text e key) +:+ Text.nl) <$> keys.

(** The output of [display_element] for an element: the heading, the lines
    and the closing line, after what was printed before. *)
Definition shown (lines : list string) (w : world) : world :=
  World (w_elements w)
        (w_stdout w
         ++ [Txt.properties_head +:+ Text.nl]
         ++ lines
         ++ [Txt.properties_foot +:+ Text.nl])
        (w_stdin w) (w_files w).

(** The fields the HTML table shows, and those the Markdown overview shows. *)
Definition has_table_fields (e : gmap string string) : Prop :=
  is_Some (e !! "Symbol") ∧ is_Some (e !! "Element")
  ∧ is_Some (e !! "AtomicNumber").

Definition has_report_fields (e : gmap string string) : Prop :=
  has_table_fields e ∧ is_Some (e !! "AtomicMass").

(** The table row and the Markdown section of an element. *)
Definition html_row_of (e : gmap string string) : string :=
  Txt.html_row (field_text e "Symbol") (field_text e "Element")
    (field_text e "AtomicNumber").

Definition markdown_section_of (e : gmap string string) : string :=
  Txt.markdown_title (field_text e "Symbol") (field_text e "Element")
  +:+ Txt.markdown_number (field_text e "AtomicNumber")
  +:+ Txt.markdown_mass (field_text e "AtomicMass").

(** An element with the six fields the program reads, whose [AtomicMass]
    is a number. *)
Definition well_formed (e : gmap string string) : Prop :=
  has_report_fields e ∧ is_Some (e !! "Group") ∧ is_Some (e !! "Period")
  ∧ is_Some (mass_of e).

(** A world whose elements are all well formed. *)
Definition good (w : world) : Prop := Forall well_formed (w_elements w).

(** The computation leaves the world as it is. *)
Definition pure_M {A : Type} (m : M A) : Prop := ∀ w, (m w).2 = w.

(** The computation reads input but never adds to it. *)
Definition calm_M {A : Type} (m : M A) : Prop :=
  ∀ w, (length (w_stdin (m w).2) <= length (w_stdin w))%nat.

Definition calm {A : Type} (m : T A) : Prop :=
  ∀ s, (length (w_stdin (m_world (m s).2)) <= length (w_stdin (m_world s)))%nat.

(** From a good world the computation ends in a good world, with a result
    that satisfies [Q] or with [EOFError] and no other exception. *)
Definition safe_M {A : Type} (m : M A) (Q : A -> Prop) : Prop :=
  ∀ w, good w ->
    good (m w).2
    ∧ match (m w).1 with
      | Ok a => Q a
      | Raise e => e = EOFError
      end.

Definition safe {A : Type} (m : T A) (Q : A -> Prop) : Prop :=
  ∀ s, good (m_world s) ->
    good (m_world (m s).2)
    ∧ match (m s).1 with
      | Ok a => Q a
      | Raise e => e = EOFError
      end.

(** The keys of every element are among the field names and [Group]. *)
Definition covered (fieldnames : list string) (w : world) : Prop :=
  Forall (fun e : gmap string string =>
            ∀ key, is_Some (e !! key) -> key ∈ fieldnames ++ ["Group"])
         (w_elements w).

(** The computation leaves the element collection as it is. *)
Definition still_M {A : Type} (m : M A) : Prop :=
  ∀ w, w_elements (m w).2 = w_elements w.

Definition still {A : Type} (m : T A) : Prop :=
  ∀ s, w_elements (m_world (m s).2) = w_elements (m_world s).

(** The computation gives no element a key beyond the field names and
    [Group]. *)
Definition keeps (fieldnames : list string) {A : Type} (m : T A) : Prop :=
  ∀ s, covered fieldnames (m_world s) -> covered fieldnames (m_world (m s).2).

(** * Sample data *)

Module Sample.

(** Two elements of one group, with the masses 1.008 and 4.0026. *)
Definition H : gmap string string :=
  {[ "Symbol" := "H"; "Element" := "Hydrogen"; "AtomicNumber" := "1";
     "AtomicMass" := "1.008"; "Group" := "1"; "Period" := "1" ]}.
Definition He : gmap string string :=
  {[ "Symbol" := "He"; "Element" := "Helium"; "AtomicNumber" := "2";
     "AtomicMass" := "4.0026"; "Group" := "1"; "Period" := "1" ]}.

(** Oxygen, and a row whose atomic number is written with a leading zero;
    neither has a [Group] yet. *)
Definition O : gmap string string :=
  {[ "Symbol" := "O"; "Element" := "Oxygen"; "AtomicNumber" := "8";
     "AtomicMass" := "15.999"; "Period" := "2" ]}.
Definition O_padded : gmap string string :=
  {[ "Symbol" := "Ox"; "Element" := "Oxygen"; "AtomicNumber" := "08";
     "AtomicMass" := "15.999"; "Period" := "2" ]}.

(** A row whose mass is not a number. *)
Definition broken : gmap string string :=
  {[ "Symbol" := "Zz"; "Element" := "Broken"; "AtomicNumber" := "0";
     "AtomicMass" := "abc"; "Group" := "1"; "Period" := "1" ]}.

(** A row with a symbol and nothing else. *)
Definition bare : gmap string string := {[ "Symbol" := "H" ]}.

Definition nonmetals : group := Group "Nekovy" ["H"; "O"].
Definition gases : group := Group "Plyny" ["O"; "He"].
Definition unnamed : group := Group "" ["H"].

Definition world_of (els : list (gmap string string)) : world :=
  World els [] [] ∅.

(** A CSV file of hydrogen and helium, with a blank line between them. *)
Definition table : csv_file :=
  CsvFile ["Symbol"; "Element"; "AtomicNumber"; "AtomicMass"; "Group"; "Period"]
          [["H"; "Hydrogen"; "1"; "1.008"; "1"; "1"];
           [];
           ["He"; "Helium"; "2"; "4.0026"; "1"; "1"]]
          I.

End Sample.

(** * Properties *)

(** ** Running the monad *)

Lemma run_bind {A B : Type} (m : M A) (f : A -> M B) (w : world) :
  ((m ≫= f) : M B) w =
  match m w with
  | (Ok a, w') => f a w'
  | (Raise e, w') => (Raise e, w')
  end.
Proof. reflexivity. Qed.

Lemma run_ret {A : Type} (a : A) (w : world) : (mret a : M A) w = (Ok a, w).
Proof. reflexivity. Qed.

Lemma run_print (text : string) (w : world) :
  print text w = (Ok tt, write_stdout (text +:+ Text.nl) w).
Proof. reflexivity. Qed.

Lemma run_getitem_Some (d : gmap string string) (key v : string) (w : world) :
  d !! key = Some v -> getitem d key w = (Ok v, w).
Proof. intros E. unfold getitem. rewrite E. reflexivity. Qed.

Lemma run_getitem_None (d : gmap string string) (key : string) (w : world) :
  d !! key = None -> getitem d key w = (Raise (KeyError key), w).
Proof. intros E. unfold getitem. rewrite E. reflexivity. Qed.

Ltac run :=
  repeat (progress (rewrite ?run_bind, ?run_print, ?run_ret; cbn beta iota)).

(** ** find_group *)

Lemma find_group_skip (pre rest : list group) (symbol : string) :
  Forall (fun g => symbol ∉ elements g) pre ->
  find_group (pre ++ rest) symbol = find_group rest symbol.
Proof.
  induction 1 as [|g pre Hg _ IH]; [reflexivity|].
  simpl. rewrite bool_decide_eq_false_2 by exact Hg. exact IH.
Qed.

Lemma find_group_range (groups : list group) (symbol : string) :
  find_group groups symbol = unknown_group
  ∨ ∃ g, g ∈ groups ∧ symbol ∈ elements g ∧ find_group groups symbol = cs g.
Proof.
  induction groups as [|g groups IH]; [by left|].
  simpl. case_bool_decide as Hg.
  - right. exists g. split; [apply list_elem_of_here|done].
  - destruct IH as [IH|(g' & Hin & Hs & IH)]; [by left|].
    right. exists g'. split; [by apply list_elem_of_further|done].
Qed.

(** C3.  [find_group] scans the table in order: the label it returns is the
    [cs] of the first group whose [elements] hold the symbol, so that with
    overlapping member lists the earliest group wins, and it is the
    unknown-group label when no group holds the symbol.  The result is a
    function of the table and the symbol alone; nothing is written. *)
Theorem find_group_first_match (groups : list group) (symbol : string) :
  (∀ pre g post,
      groups = pre ++ g :: post ->
      symbol ∈ elements g ->
      (∀ g', g' ∈ pre -> symbol ∉ elements g') ->
      find_group groups symbol = cs g)
  ∧ ((∀ g, g ∈ groups -> symbol ∉ elements g) ->
     find_group groups symbol = unknown_group).
Proof.
  split.
  - intros pre g post -> Hin Hpre.
    rewrite find_group_skip by (apply Forall_forall; exact Hpre).
    simpl. by rewrite bool_decide_eq_true_2.
  - intros Hnone.
    rewrite <- (app_nil_r groups), find_group_skip; [reflexivity|].
    apply Forall_forall. exact Hnone.
Qed.

Lemma find_group_first_match_witness :
  find_group [Group "Kovy" ["Li"; "Na"]; Group "Alkalické kovy" ["Na"; "K"];
              Group "Nekovy" ["Na"]] "Na" = "Kovy"
  ∧ find_group [Group "Kovy" ["Li"; "Na"]] "Xx" = unknown_group.
Proof.
  split.
  - apply (proj1 (find_group_first_match _ "Na") [] (Group "Kovy" ["Li"; "Na"])
             [Group "Alkalické kovy" ["Na"; "K"]; Group "Nekovy" ["Na"]]).
    + reflexivity.
    + apply (bool_decide_unpack _). vm_compute. exact I.
    + intros g' Hg'. inversion Hg'.
  - apply (proj2 (find_group_first_match [Group "Kovy" ["Li"; "Na"]] "Xx")).
    intros g Hg. apply list_elem_of_singleton in Hg as ->. simpl.
    intros Hx. apply list_elem_of_In in Hx. simpl in Hx.
    destruct Hx as [Hx|[Hx|[]]]; discriminate Hx.
Defined.

(** ** search_element *)

Lemma search_from_spec (groups : list group) (criterion value : string)
    (rest : list (gmap string string)) (i : nat) (w : world) :
  search_from groups criterion value i rest w =
  match list_find (fun e : gmap string string => e !! criterion = Some value) rest with
  | Some (j, e) => found groups (i + j) e w
  | None => (Ok (NewDict ∅), write_stdout (Msg.not_found +:+ Text.nl) w)
  end.
Proof.
  revert i. induction rest as [|e rest IH]; intros i; [reflexivity|].
  cbn [search_from list_find]. case_bool_decide as Hm.
  - rewrite decide_True by exact Hm. rewrite Nat.add_0_r.
    unfold found. run.
    destruct (truthy (e !! "Group")); cbn [negb]; run; [reflexivity|].
    unfold getitem. destruct (e !! "Symbol"); reflexivity.
  - rewrite decide_False by exact Hm. rewrite IH.
    fold (list_find (fun e : gmap string string => e !! criterion = Some value) rest).
    destruct (list_find _ rest) as [[j e']|]; [|reflexivity].
    cbn. by rewrite Nat.add_succ_r.
Qed.

Lemma search_element_spec (groups : list group) (criterion value : string)
    (w : world) :
  search_element groups criterion value w =
  match list_find (fun e : gmap string string => e !! criterion = Some value)
          (w_elements w) with
  | Some (j, e) => found groups j e w
  | None => (Ok (NewDict ∅), write_stdout (Msg.not_found +:+ Text.nl) w)
  end.
Proof. unfold search_element, get_elements. run. apply search_from_spec. Qed.

Lemma list_find_first_match (criterion value : string)
    (els : list (gmap string string)) (i : nat) (e : gmap string string) :
  list_find (fun e : gmap string string => e !! criterion = Some value) els
    = Some (i, e)
  <-> first_match criterion value els i e.
Proof.
  unfold first_match.
  apply (list_find_Some (fun e : gmap string string => e !! criterion = Some value)).
Qed.

Lemma search_element_found (groups : list group) (criterion value : string)
    (w : world) (i : nat) (e : gmap string string) :
  first_match criterion value (w_elements w) i e ->
  search_element groups criterion value w = found groups i e w.
Proof.
  intros Hf. rewrite search_element_spec.
  apply list_find_first_match in Hf. by rewrite Hf.
Qed.

Lemma search_element_no_match (groups : list group) (criterion value : string)
    (w : world) :
  Forall (fun e : gmap string string => e !! criterion ≠ Some value) (w_elements w) ->
  search_element groups criterion value w =
  (Ok (NewDict ∅), write_stdout (Msg.not_found +:+ Text.nl) w).
Proof.
  intros Hn. rewrite search_element_spec.
  apply (list_find_None (fun e : gmap string string => e !! criterion = Some value)) in Hn.
  by rewrite Hn.
Qed.

(** A search that returns the i-th object met it as the first match. *)
Lemma search_element_returns_elem (groups : list group) (criterion value : string)
    (w w' : world) (i : nat) :
  search_element groups criterion value w = (Ok (Elem i), w') ->
  ∃ e, first_match criterion value (w_elements w) i e
       ∧ found groups i e w = (Ok (Elem i), w').
Proof.
  rewrite search_element_spec.
  destruct (list_find _ (w_elements w)) as [[j e]|] eqn:Hfind; [|discriminate].
  intros Hr. apply list_find_first_match in Hfind.
  assert (j = i) as ->.
  { unfold found in Hr. destruct (truthy _); [congruence|].
    destruct (e !! "Symbol"); congruence. }
  eauto.
Qed.

(** X1.  The one way a matching search fails: the first match has no [Group]
    to show and no [Symbol] to resolve, and [element["Symbol"]] raises after
    the heading has been printed. *)
Lemma search_element_without_symbol (groups : list group)
    (criterion value : string) (w : world) (i : nat) (e : gmap string string) :
  first_match criterion value (w_elements w) i e ->
  truthy (e !! "Group") = false ->
  e !! "Symbol" = None ->
  search_element groups criterion value w =
  (Raise (KeyError "Symbol"), write_stdout (Msg.search_result +:+ Text.nl) w).
Proof.
  intros Hf Hg Hs. rewrite (search_element_found _ _ _ _ _ _ Hf).
  unfold found. by rewrite Hg, Hs.
Qed.

Lemma truthy_Some (s : string) : truthy (Some s) = true <-> s ≠ "".
Proof.
  unfold truthy. rewrite negb_true_iff. apply String.eqb_neq.
Qed.

Lemma unknown_group_nonempty : unknown_group ≠ "".
Proof. discriminate. Qed.

(** C2.  [search_element] returns the first element, in the order of the
    collection, whose field [criterion] is the very string [value]: when
    such a first match exists (and, its [Group] being empty, has the
    [Symbol] the resolver is asked about) the call returns that object, and
    whatever object a call returns is the first one whose stored field
    equals [value] as a string, so that a stored "08" is never returned for
    the value "8". *)
Theorem search_element_exact_first_match (groups : list group)
    (criterion value : string) (w : world) :
  (∀ i e,
      first_match criterion value (w_elements w) i e ->
      truthy (e !! "Group") = true ∨ is_Some (e !! "Symbol") ->
      ∃ w', search_element groups criterion value w = (Ok (Elem i), w'))
  ∧ (∀ i w',
      search_element groups criterion value w = (Ok (Elem i), w') ->
      ∃ e, first_match criterion value (w_elements w) i e).
Proof.
  split.
  - intros i e Hf Hok. rewrite (search_element_found _ _ _ _ _ _ Hf).
    unfold found. destruct (truthy (e !! "Group")) eqn:Hg; [eauto|].
    destruct Hok as [Hok|[symbol Hs]]; [discriminate|].
    rewrite Hs. eauto.
  - intros i w' Hr.
    apply search_element_returns_elem in Hr as (e & Hf & _). eauto.
Qed.

Lemma search_element_exact_first_match_witness :
  ∃ w', search_element [Sample.gases] "AtomicNumber" "8"
          (Sample.world_of [Sample.O_padded; Sample.O]) = (Ok (Elem 1%nat), w').
Proof.
  apply (proj1 (search_element_exact_first_match [Sample.gases] "AtomicNumber" "8"
                  (Sample.world_of [Sample.O_padded; Sample.O])) 1%nat Sample.O).
  - split; [reflexivity|]. split; [reflexivity|].
    intros [|j] e' He' Hj; [|lia].
    injection He' as <-. vm_compute. discriminate.
  - right. exists "O". reflexivity.
Defined.

(** C9.  An element without the field [criterion] never makes
    [search_element] fail: the lookup yields [None], which is no string, so
    the loop goes on to the next element; when no element has the field the
    call ends with the not-found result. *)
Theorem search_element_missing_field (groups : list group)
    (criterion value : string) (w : world) :
  (∀ pre rest,
      w_elements w = pre ++ rest ->
      Forall (fun e : gmap string string => e !! criterion = None) pre ->
      search_element groups criterion value w =
      search_from groups criterion value (length pre) rest w)
  ∧ (Forall (fun e : gmap string string => e !! criterion = None) (w_elements w) ->
     search_element groups criterion value w =
     (Ok (NewDict ∅), write_stdout (Msg.not_found +:+ Text.nl) w)).
Proof.
  split.
  - intros pre rest Hw Hpre.
    rewrite search_element_spec, search_from_spec, Hw.
    rewrite (list_find_app_r (fun e : gmap string string => e !! criterion = Some value)).
    + destruct (list_find _ rest) as [[j e]|]; [|reflexivity].
      cbn. by rewrite Nat.add_comm.
    + apply (list_find_None (fun e : gmap string string => e !! criterion = Some value)).
      eapply Forall_impl; [exact Hpre|]. intros e He. rewrite He. discriminate.
  - intros Hall. apply search_element_no_match.
    eapply Forall_impl; [exact Hall|]. intros e He. rewrite He. discriminate.
Qed.

Lemma search_element_missing_field_witness :
  search_element [Sample.nonmetals] "Density" "1.43"
    (Sample.world_of [Sample.O; Sample.H]) =
  (Ok (NewDict ∅),
   write_stdout (Msg.not_found +:+ Text.nl) (Sample.world_of [Sample.O; Sample.H])).
Proof.
  apply (proj2 (search_element_missing_field [Sample.nonmetals] "Density" "1.43"
                  (Sample.world_of [Sample.O; Sample.H]))).
  repeat constructor.
Defined.

Lemma found_elements (groups : list group) (i : nat) (e : gmap string string)
    (w w' : world) (r : outcome elem_ref) :
  found groups i e w = (r, w') ->
  (w_elements w' = w_elements w)
  ∨ (r = Ok (Elem i) ∧ truthy (e !! "Group") = false
     ∧ ∃ symbol, e !! "Symbol" = Some symbol
         ∧ w_elements w' =
           alter (insert "Group" (find_group groups symbol)) i (w_elements w)).
Proof.
  unfold found. destruct (truthy (e !! "Group")) eqn:Hg.
  - intros [= <- <-]. by left.
  - destruct (e !! "Symbol") as [symbol|] eqn:Hs.
    + intros [= <- <-]. right. eauto.
    + intros [= <- <-]. by left.
Qed.

Lemma found_frame (groups : list group) (i : nat) (e : gmap string string)
    (w w' : world) (r : outcome elem_ref) :
  found groups i e w = (r, w') ->
  w_stdin w' = w_stdin w ∧ w_files w' = w_files w.
Proof.
  unfold found. destruct (truthy (e !! "Group")).
  - by intros [= <- <-].
  - destruct (e !! "Symbol"); by intros [= <- <-].
Qed.

(** The not-found result of C5 is an empty record: at this input nothing
    matches, and what the call returns is the value of the stored element
    that has no fields. *)
Lemma search_element_not_found_is_empty_record :
  ∃ w', search_element [] "Symbol" "H" (Sample.world_of [∅]) = (Ok (NewDict ∅), w')
        ∧ deref w' (NewDict ∅) = deref w' (Elem 0%nat).
Proof. eexists. split; reflexivity. Qed.

(** C5, as the code has it.  When no element matches, [search_element]
    prints the not-found text and returns a new empty dict, leaving the
    collection as it was.  The empty dict is its not-found signal: a found
    element is never empty, so a returned dict is empty exactly when nothing
    matched. *)
Theorem search_element_not_found (groups : list group)
    (criterion value : string) (w : world) :
  (Forall (fun e : gmap string string => e !! criterion ≠ Some value) (w_elements w) ->
   search_element groups criterion value w =
   (Ok (NewDict ∅), write_stdout (Msg.not_found +:+ Text.nl) w))
  ∧ (∀ r w',
      search_element groups criterion value w = (Ok r, w') ->
      (deref w' r = Some ∅
       <-> Forall (fun e : gmap string string => e !! criterion ≠ Some value)
             (w_elements w))).
Proof.
  split; [apply search_element_no_match|].
  intros r w' Hr. rewrite search_element_spec in Hr.
  destruct (list_find _ (w_elements w)) as [[j e]|] eqn:Hfind.
  - apply list_find_first_match in Hfind as Hf.
    destruct Hf as (Hj & Hc & _).
    assert (Hne : ¬ Forall (fun e : gmap string string => e !! criterion ≠ Some value)
                      (w_elements w)).
    { intros Hall. rewrite Forall_lookup in Hall. exact (Hall _ _ Hj Hc). }
    assert (Hd : deref w' r ≠ Some ∅); [|tauto].
    pose proof (found_elements _ _ _ _ _ _ Hr) as [Hsame|([= ->] & _ & symbol & _ & Hw')].
    + unfold found in Hr. destruct (truthy (e !! "Group")).
      * injection Hr as <- <-. cbn. rewrite Hj. intros [= ->].
        by rewrite lookup_empty in Hc.
      * destruct (e !! "Symbol"); [|discriminate]. injection Hr as <- <-.
        cbn in *. rewrite Hsame, Hj. intros [= ->]. by rewrite lookup_empty in Hc.
    + cbn. rewrite Hw', list_lookup_alter_eq, Hj. cbn. intros [= Hempty].
      apply (f_equal (fun m : gmap string string => m !! "Group")) in Hempty.
      by rewrite lookup_insert_eq, lookup_empty in Hempty.
  - injection Hr as <- <-. cbn.
    apply (list_find_None (fun e : gmap string string => e !! criterion = Some value)) in Hfind.
    tauto.
Qed.

Lemma search_element_not_found_witness :
  search_element [Sample.nonmetals] "Symbol" "Xx"
    (Sample.world_of [Sample.H; Sample.He]) =
  (Ok (NewDict ∅),
   write_stdout (Msg.not_found +:+ Text.nl) (Sample.world_of [Sample.H; Sample.He])).
Proof.
  apply (proj1 (search_element_not_found [Sample.nonmetals] "Symbol" "Xx"
                  (Sample.world_of [Sample.H; Sample.He]))).
  repeat constructor; vm_compute; discriminate.
Defined.

(** The [Group] of a search result can be empty (C10): a group whose label
    is the empty string resolves the symbol to that label. *)
Lemma search_element_group_can_be_empty :
  ∃ w', search_element [Sample.unnamed] "Symbol" "H" (Sample.world_of [Sample.bare])
          = (Ok (Elem 0%nat), w')
        ∧ group_field w' 0 = Some "".
Proof. eexists. split; reflexivity. Qed.

(** C10, as the code has it.  After [search_element] has returned an
    element, that element has a [Group] field: the non-empty value it had
    before, or else the resolver's answer for its [Symbol], which is the
    label of a group of the table holding the symbol or the unknown-group
    label.  The field is non-empty when no group of the table has an empty
    label. *)
Theorem search_element_group_populated (groups : list group)
    (criterion value : string) (w w' : world) (i : nat) :
  search_element groups criterion value w = (Ok (Elem i), w') ->
  ∃ e label,
    w_elements w !! i = Some e
    ∧ group_field w' i = Some label
    ∧ ((e !! "Group" = Some label ∧ label ≠ "")
       ∨ (truthy (e !! "Group") = false
          ∧ ∃ symbol, e !! "Symbol" = Some symbol
              ∧ label = find_group groups symbol
              ∧ (label = unknown_group
                 ∨ ∃ g, g ∈ groups ∧ symbol ∈ elements g ∧ label = cs g)))
    ∧ (Forall (fun g => cs g ≠ "") groups -> label ≠ "").
Proof.
  intros Hr. apply search_element_returns_elem in Hr as (e & (Hi & _ & _) & Hr).
  exists e. unfold found in Hr. destruct (truthy (e !! "Group")) eqn:Hg.
  - injection Hr as <-. destruct (e !! "Group") as [label|] eqn:He; [|discriminate].
    apply truthy_Some in Hg. exists label.
    split; [exact Hi|]. split; [|split; [by left|done]].
    unfold group_field. cbn. by rewrite Hi.
  - destruct (e !! "Symbol") as [symbol|] eqn:Hs; [|discriminate].
    injection Hr as <-. exists (find_group groups symbol).
    split; [exact Hi|]. split; [|split].
    + unfold group_field. cbn. rewrite list_lookup_alter_eq, Hi. cbn.
      by rewrite lookup_insert_eq.
    + right. split; [reflexivity|]. exists symbol. split; [reflexivity|].
      split; [reflexivity|].
      destruct (find_group_range groups symbol) as [Hu|(g & ? & ? & ?)]; eauto.
    + intros Hlabels.
      destruct (find_group_range groups symbol) as [->|(g & Hin & _ & ->)].
      * exact unknown_group_nonempty.
      * rewrite Forall_forall in Hlabels. by apply Hlabels.
Qed.

Lemma search_element_group_populated_witness :
  ∃ e label,
    w_elements (Sample.world_of [Sample.H; Sample.O]) !! 1%nat = Some e
    ∧ group_field
        (World (alter (insert "Group" "Nekovy") 1%nat [Sample.H; Sample.O])
               [Msg.search_result +:+ Text.nl] [] ∅) 1 = Some label
    ∧ ((e !! "Group" = Some label ∧ label ≠ "")
       ∨ (truthy (e !! "Group") = false
          ∧ ∃ symbol, e !! "Symbol" = Some symbol
              ∧ label = find_group [Sample.nonmetals; Sample.gases] symbol
              ∧ (label = unknown_group
                 ∨ ∃ g, g ∈ [Sample.nonmetals; Sample.gases]
                        ∧ symbol ∈ elements g ∧ label = cs g)))
    ∧ (Forall (fun g => cs g ≠ "") [Sample.nonmetals; Sample.gases] -> label ≠ "").
Proof.
  apply (search_element_group_populated [Sample.nonmetals; Sample.gases]
           "AtomicNumber" "8" (Sample.world_of [Sample.H; Sample.O])).
  reflexivity.
Defined.




(** ** calculate_average_mass *)

Lemma masses_where_ok (field : string) (wanted : option string)
    (els : list (gmap string string)) (masses : list Float.pyfloat) (w : world) :
  Forall (fun e : gmap string string => is_Some (e !! field)) els ->
  mapM mass_of (chosen field wanted els) = Some masses ->
  masses_where field wanted els w = (Ok masses, w).
Proof.
  intros Hall. revert masses.
  induction Hall as [|e els [v Hv] _ IH]; intros masses Hm.
  - cbn in Hm. injection Hm as <-. reflexivity.
  - cbn [masses_where]. run. rewrite (run_getitem_Some _ _ _ _ Hv).
    unfold chosen in Hm. rewrite filter_cons in Hm. rewrite Hv in Hm.
    case_bool_decide as Hd.
    + rewrite decide_True in Hm by exact Hd. cbn in Hm.
      unfold mass_of in Hm.
      destruct (e !! "AtomicMass") as [text|] eqn:Ht;
        cbn [mbind option_bind] in Hm; [|discriminate].
      destruct (Float.float_of_string text) as [x|] eqn:Hx;
        cbn [mbind option_bind] in Hm; [|discriminate].
      destruct (mapM _ (filter _ els)) as [xs|] eqn:Hxs;
        cbn [mbind option_bind mret option_ret] in Hm; [|discriminate].
      injection Hm as <-. run. rewrite (run_getitem_Some _ _ _ _ Ht). run.
      unfold py_float. rewrite Hx. run. rewrite (IH xs Hxs). reflexivity.
    + rewrite decide_False in Hm by exact Hd. by apply IH.
Qed.

Lemma masses_where_malformed (field : string) (wanted : option string)
    (els : list (gmap string string)) (w : world) :
  Forall (fun e : gmap string string =>
            is_Some (e !! field) ∧ is_Some (e !! "AtomicMass")) els ->
  Exists malformed (chosen field wanted els) ->
  ∃ e text,
    e ∈ chosen field wanted els
    ∧ e !! "AtomicMass" = Some text
    ∧ Float.float_of_string text = None
    ∧ masses_where field wanted els w = (Raise (ValueError text), w).
Proof.
  induction 1 as [|e els [[v Hv] [text Ht]] _ IH]; intros Hbad.
  - inversion Hbad.
  - cbn [masses_where]. run. rewrite (run_getitem_Some _ _ _ _ Hv).
    unfold chosen in *. rewrite filter_cons in *. rewrite Hv in *.
    case_bool_decide as Hd.
    + rewrite decide_True in * by exact Hd.
      run. rewrite (run_getitem_Some _ _ _ _ Ht). run.
      unfold py_float. destruct (Float.float_of_string text) as [x|] eqn:Hx.
      * run. apply Exists_cons in Hbad as [(text' & Ht' & Hx')|Hbad]; [congruence|].
        destruct (IH Hbad) as (e' & text' & Hin & Ht' & Hx' & ->).
        exists e', text'. split; [by apply list_elem_of_further|done].
      * exists e, text. split; [apply list_elem_of_here|done].
    + rewrite decide_False in * by exact Hd. by apply IH.
Qed.

Lemma filter_none {A : Type} (P : A -> Prop) `{!∀ x, Decision (P x)} (l : list A) :
  Forall (fun x => ¬ P x) l -> filter P l = [].
Proof.
  induction 1 as [|x l Hx _ IH]; [reflexivity|].
  by rewrite filter_cons_False.
Qed.

Lemma mean_finite (masses : list Float.pyfloat) :
  masses ≠ [] ->
  Forall (fun x => Float.is_finite x = true) masses ->
  Float.mean masses = Some (Float.of_Q (Float.exact_mean masses)).
Proof.
  intros Hne Hfin. unfold Float.mean. destruct masses as [|x xs]; [done|].
  rewrite filter_none; [reflexivity|].
  eapply Forall_impl; [exact Hfin|]. intros y Hy. rewrite Hy. discriminate.
Qed.

Lemma mean_nonempty (masses : list Float.pyfloat) :
  masses ≠ [] -> is_Some (Float.mean masses).
Proof.
  intros Hne. unfold Float.mean. destruct masses as [|x xs]; [done|].
  destruct (filter _ (x :: xs)); eauto.
Qed.

Lemma report_average_nonempty (masses : list Float.pyfloat) (avg : Float.pyfloat)
    (w : world) :
  masses ≠ [] ->
  Float.mean masses = Some avg ->
  report_average masses w = (Ok avg, write_stdout (Msg.average avg +:+ Text.nl) w).
Proof.
  intros Hne Hm. unfold report_average. destruct masses as [|x xs]; [done|].
  rewrite Hm. reflexivity.
Qed.

(** With exactly one criterion supplied the call is the filter on its field
    followed by the report. *)
Lemma calculate_average_mass_one (group period : option string)
    (field : string) (wanted : option string) (w : world) :
  one_supplied group period field wanted ->
  calculate_average_mass group period w =
  match masses_where field wanted (w_elements w) w with
  | (Ok filtered_elements, w') => report_average filtered_elements w'
  | (Raise e, w') => (Raise e, w')
  end.
Proof.
  intros [(Hg & Hp & -> & ->)|(Hg & Hp & -> & ->)];
    unfold calculate_average_mass; rewrite Hg, Hp; reflexivity.
Qed.

Lemma has_fields_field (group period : option string)
    (field : string) (wanted : option string) (els : list (gmap string string)) :
  one_supplied group period field wanted ->
  Forall has_fields els ->
  Forall (fun e : gmap string string =>
            is_Some (e !! field) ∧ is_Some (e !! "AtomicMass")) els.
Proof.
  intros Hone Hall. eapply Forall_impl; [exact Hall|].
  intros e (Hg & Hp & Hm).
  destruct Hone as [(_ & _ & -> & _)|(_ & _ & -> & _)]; done.
Qed.

(** C1.  With exactly one of [group] and [period] supplied, and every
    element having its [Group], [Period] and [AtomicMass],
    [calculate_average_mass] keeps the elements whose [Group] (respectively
    [Period]) is the very string asked for, reads the [AtomicMass] of each
    as a number and returns the mean of these numbers, which for finite
    masses is their exact arithmetic mean rounded once to a float; it prints
    the mean with two decimals.  When no element is kept it prints the
    nothing-to-compute text and returns 0.0; nothing is raised.  For the two
    elements of one group with the masses 1.008 and 4.0026 the result is the
    float 2.5053, shown as 2.51. *)
Theorem calculate_average_mass_mean :
  (∀ (group period : option string) (field : string) (wanted : option string)
     (w : world),
      Forall has_fields (w_elements w) ->
      one_supplied group period field wanted ->
      (∀ masses,
          mapM mass_of (chosen field wanted (w_elements w)) = Some masses ->
          masses ≠ [] ->
          ∃ avg,
            Float.mean masses = Some avg
            ∧ (Forall (fun x => Float.is_finite x = true) masses ->
               avg = Float.of_Q (Float.exact_mean masses))
            ∧ calculate_average_mass group period w =
              (Ok avg, write_stdout (Msg.average avg +:+ Text.nl) w))
      ∧ (chosen field wanted (w_elements w) = [] ->
         calculate_average_mass group period w =
         (Ok Float.zero, write_stdout (Msg.nothing_to_compute +:+ Text.nl) w)))
  ∧ (∃ avg,
        Float.float_of_string "2.5053" = Some avg
        ∧ Float.format_2f avg = "2.51"
        ∧ calculate_average_mass (Some "1") None
            (Sample.world_of [Sample.H; Sample.He]) =
          (Ok avg, write_stdout (Msg.average avg +:+ Text.nl)
                     (Sample.world_of [Sample.H; Sample.He]))).
Proof.
  split.
  - intros group period field wanted w Hall Hone.
    pose proof (has_fields_field _ _ _ _ _ Hone Hall) as Hf.
    rewrite (calculate_average_mass_one _ _ _ _ _ Hone). split.
    + intros masses Hm Hne.
      rewrite (masses_where_ok _ _ _ masses); [|by eapply Forall_impl; [exact Hf|]; intros ? []|done].
      destruct (mean_nonempty masses Hne) as [avg Havg]. exists avg.
      split; [exact Havg|]. split.
      * intros Hfin. rewrite (mean_finite _ Hne Hfin) in Havg. congruence.
      * by apply report_average_nonempty.
    + intros Hnil.
      rewrite (masses_where_ok _ _ _ []); [reflexivity| |by rewrite Hnil].
      eapply Forall_impl; [exact Hf|]. by intros ? [].
  - eexists. split; [vm_compute; reflexivity|]. split; vm_compute; reflexivity.
Qed.

Lemma calculate_average_mass_mean_witness :
  ∃ avg,
    Float.mean [S754_finite false 4503599627370496 (-52);
                S754_finite false 6755399441055744 (-51)] = Some avg
    ∧ calculate_average_mass None (Some "2")
        (Sample.world_of
           [Sample.H; <["AtomicMass" := "1"]> (<["Group" := "16"]> Sample.O);
            <["AtomicMass" := "3.0"]> (<["Group" := "16"]> Sample.O_padded)]) =
      (Ok avg,
       write_stdout (Msg.average avg +:+ Text.nl)
         (Sample.world_of
            [Sample.H; <["AtomicMass" := "1"]> (<["Group" := "16"]> Sample.O);
             <["AtomicMass" := "3.0"]> (<["Group" := "16"]> Sample.O_padded)])).
Proof.
  destruct (proj1 (proj1 calculate_average_mass_mean None (Some "2") "Period" (Some "2")
             (Sample.world_of
                [Sample.H; <["AtomicMass" := "1"]> (<["Group" := "16"]> Sample.O);
                 <["AtomicMass" := "3.0"]> (<["Group" := "16"]> Sample.O_padded)])
             ltac:(repeat constructor; eexists; vm_compute; reflexivity)
             ltac:(right; repeat split; reflexivity))
           [S754_finite false 4503599627370496 (-52);
            S754_finite false 6755399441055744 (-51)]
           ltac:(vm_compute; reflexivity) ltac:(discriminate))
    as (avg & Hmean & _ & Hcall).
  exists avg. split; [exact Hmean|exact Hcall].
Defined.

(** C4.  With both [group] and [period] supplied, or with neither,
    [calculate_average_mass] prints one diagnostic and returns 0.0.  Nothing
    is raised, the collection is not changed, and neither the result nor the
    text printed depends on what the collection holds. *)
Theorem calculate_average_mass_invalid_arguments (group period : option string)
    (w : world) :
  truthy group = truthy period ->
  calculate_average_mass group period w =
  (Ok Float.zero,
   write_stdout ((if truthy group then Msg.both_given else Msg.none_given)
                 +:+ Text.nl) w)
  ∧ w_elements (calculate_average_mass group period w).2 = w_elements w
  ∧ ∀ els,
      (calculate_average_mass group period (with_elements els w)).1
        = (calculate_average_mass group period w).1
      ∧ w_stdout (calculate_average_mass group period (with_elements els w)).2
        = w_stdout (calculate_average_mass group period w).2.
Proof.
  intros Heq. unfold calculate_average_mass. rewrite <- Heq.
  destruct (truthy group); cbn [andb]; run; repeat split; reflexivity.
Qed.

Lemma calculate_average_mass_invalid_arguments_witness :
  calculate_average_mass (Some "1") (Some "2")
    (Sample.world_of [Sample.H; Sample.broken]) =
  (Ok Float.zero,
   write_stdout (Msg.both_given +:+ Text.nl)
     (Sample.world_of [Sample.H; Sample.broken]))
  ∧ calculate_average_mass None (Some "")
      (Sample.world_of [Sample.H; Sample.broken]) =
    (Ok Float.zero,
     write_stdout (Msg.none_given +:+ Text.nl)
       (Sample.world_of [Sample.H; Sample.broken])).
Proof.
  split.
  - apply (calculate_average_mass_invalid_arguments (Some "1") (Some "2")
             (Sample.world_of [Sample.H; Sample.broken])).
    reflexivity.
  - apply (calculate_average_mass_invalid_arguments None (Some "")
             (Sample.world_of [Sample.H; Sample.broken])).
    reflexivity.
Defined.

(** C8.  A kept element whose [AtomicMass] is not a number makes
    [calculate_average_mass] fail: when the masses of the kept elements are
    ASCII text and one of them is not a number, the [ValueError] of the
    conversion leaves the call, nothing is printed and no mean of the other
    rows is returned.  The collection of hydrogen, a row with the mass "abc"
    and helium, asked for their common group, is such a case. *)
Theorem calculate_average_mass_malformed :
  (∀ (group period : option string) (field : string) (wanted : option string)
     (w : world),
      Forall has_fields (w_elements w) ->
      one_supplied group period field wanted ->
      Forall ascii_mass (chosen field wanted (w_elements w)) ->
      Exists malformed (chosen field wanted (w_elements w)) ->
      ∃ e text,
        e ∈ chosen field wanted (w_elements w)
        ∧ e !! "AtomicMass" = Some text
        ∧ ascii_text text
        ∧ Float.float_of_string text = None
        ∧ calculate_average_mass group period w = (Raise (ValueError text), w))
  ∧ calculate_average_mass (Some "1") None
      (Sample.world_of [Sample.H; Sample.broken; Sample.He]) =
    (Raise (ValueError "abc"), Sample.world_of [Sample.H; Sample.broken; Sample.He]).
Proof.
  split; [|vm_compute; reflexivity].
  intros group period field wanted w Hall Hone Hascii Hbad.
  pose proof (has_fields_field _ _ _ _ _ Hone Hall) as Hf.
  destruct (masses_where_malformed field wanted (w_elements w) w Hf Hbad)
    as (e & text & Hin & Ht & Hx & Hrun).
  exists e, text. rewrite (calculate_average_mass_one _ _ _ _ _ Hone), Hrun.
  repeat split; try done.
  rewrite Forall_forall in Hascii. exact (Hascii e Hin text Ht).
Qed.

Lemma calculate_average_mass_malformed_witness :
  ∃ e text,
    e ∈ chosen "Period" (Some "1") [Sample.He; Sample.broken]
    ∧ e !! "AtomicMass" = Some text
    ∧ ascii_text text
    ∧ Float.float_of_string text = None
    ∧ calculate_average_mass (Some "") (Some "1")
        (Sample.world_of [Sample.He; Sample.broken]) =
      (Raise (ValueError text), Sample.world_of [Sample.He; Sample.broken]).
Proof.
  apply (proj1 calculate_average_mass_malformed (Some "") (Some "1") "Period" (Some "1")
           (Sample.world_of [Sample.He; Sample.broken])).
  - repeat constructor; eexists; vm_compute; reflexivity.
  - right. repeat split; reflexivity.
  - apply Forall_forall. intros e [_ Hin]%list_elem_of_filter.
    cbn [Sample.world_of w_elements] in Hin.
    repeat (apply elem_of_cons in Hin as [->|Hin]);
      [| |by apply elem_of_nil in Hin];
      intros text Ht; vm_compute in Ht; injection Ht as <-;
      repeat constructor.
  - right. left. exists "abc". split; vm_compute; reflexivity.
Defined.

(** ** export_to_json *)

Lemma read_symbols_lines (lines : list string) (blank : string)
    (rest acc : list string) (n : nat) :
  Forall (fun line => Text.strip line ≠ "") lines ->
  Text.strip blank = "" ->
  read_symbols acc n (lines ++ blank :: rest) =
  (Ok (acc ++ (Text.strip <$> lines)), (n + S (length lines))%nat, rest).
Proof.
  intros Hlines Hblank. revert acc n.
  induction Hlines as [|line lines Hline _ IH]; intros acc n.
  - cbn. rewrite Hblank. cbn. rewrite app_nil_r.
    replace (n + 1)%nat with (S n) by lia. reflexivity.
  - cbn [app read_symbols]. apply String.eqb_neq in Hline. rewrite Hline.
    rewrite IH. cbn [fmap list_fmap length]. rewrite <- app_assoc. cbn [app].
    replace (S n + S (length lines))%nat with (n + S (S (length lines)))%nat by lia.
    reflexivity.
Qed.

Lemma read_symbols_prompts (acc : list string) (n : nat) (pending : list string) :
  read_symbols acc (S n) pending =
  (let '(r, prompts, rest) := read_symbols acc n pending in (r, S prompts, rest)).
Proof.
  revert acc n. induction pending as [|line pending IH]; intros acc n; [reflexivity|].
  cbn [read_symbols]. destruct (String.eqb (Text.strip line) ""); [reflexivity|].
  apply IH.
Qed.

(** The loop of [export_to_json], one turn unrolled: the prompt and a line by
    [input], the [break] on an empty symbol, the [append] otherwise. *)
Lemma collect_symbols_loop (selected_symbols : list string) (w : world) :
  collect_symbols selected_symbols w =
  (line ← input Msg.symbol_prompt;
   let symbol := Text.strip line in
   if String.eqb symbol "" then mret selected_symbols
   else collect_symbols (selected_symbols ++ [symbol])) w.
Proof.
  run. unfold collect_symbols, input, write_stdout.
  destruct (w_stdin w) as [|line pending]; [reflexivity|].
  cbn [read_symbols w_stdin w_stdout w_elements w_files].
  destruct (String.eqb (Text.strip line) ""); [reflexivity|].
  rewrite read_symbols_prompts.
  cbn [w_stdin w_stdout w_elements w_files].
  destruct (read_symbols _ 0 pending) as [[r prompts] rest].
  cbn [replicate]. by rewrite <- app_assoc.
Qed.

Lemma select_symbols_selected (requested : list string)
    (els : list (gmap string string)) (w : world) :
  Forall (fun e : gmap string string => is_Some (e !! "Symbol")) els ->
  select_symbols requested els w = (Ok (selected requested els), w).
Proof.
  induction 1 as [|e els [symbol Hs] _ IH]; [reflexivity|].
  cbn [select_symbols]. run. rewrite (run_getitem_Some _ _ _ _ Hs).
  unfold selected in *. rewrite filter_cons. case_bool_decide as Hin.
  - rewrite decide_True by (exists symbol; done). run. rewrite IH. reflexivity.
  - rewrite decide_False; [exact IH|].
    intros (s' & Hs' & Hin'). congruence.
Qed.

Lemma selected_same_set (requested requested' : list string)
    (els : list (gmap string string)) :
  (∀ symbol, symbol ∈ requested <-> symbol ∈ requested') ->
  selected requested els = selected requested' els.
Proof.
  intros Hset. unfold selected. apply list_filter_iff.
  intros e. unfold requested_symbol. split; intros (s & ? & ?); exists s;
    (split; [done|by apply Hset]).
Qed.

(** C7.  Fed the requested symbols, one per line and ended by a blank line,
    [export_to_json] writes to the file exactly the elements whose [Symbol]
    is among the requested ones: they come in the order of the collection,
    whatever the order or the repetitions of the request, each with all its
    fields, and a requested symbol that no element has adds nothing.  The
    collection stays as it was.  Asked for H and Xx where no element is Xx,
    the file holds the one record of H. *)
Theorem export_to_json_selection :
  (∀ (file_path : string) (w : world) (lines : list string) (blank : string)
     (rest : list string),
      w_stdin w = lines ++ blank :: rest ->
      Forall (fun line => Text.strip line ≠ "") lines ->
      Text.strip blank = "" ->
      Forall (fun e : gmap string string => is_Some (e !! "Symbol")) (w_elements w) ->
      let requested := Text.strip <$> lines in
      let chosen_elements := selected requested (w_elements w) in
      export_to_json file_path w =
      (Ok tt,
       World (w_elements w)
             (w_stdout w
              ++ [Msg.enter_symbols +:+ Text.nl]
              ++ replicate (S (length lines)) Msg.symbol_prompt
              ++ [Msg.exported file_path (length chosen_elements) +:+ Text.nl])
             rest
             (<[file_path := JsonDump chosen_elements false 4]> (w_files w)))
      ∧ chosen_elements `sublist_of` w_elements w
      ∧ (∀ e, e ∈ chosen_elements <->
              e ∈ w_elements w ∧ requested_symbol requested e)
      ∧ (∀ requested',
            (∀ symbol, symbol ∈ requested <-> symbol ∈ requested') ->
            selected requested' (w_elements w) = chosen_elements))
  ∧ export_to_json default_json_path
      (World [Sample.H; Sample.He] [] ["H"; "Xx"; ""] ∅) =
    (Ok tt,
     World [Sample.H; Sample.He]
           ([Msg.enter_symbols +:+ Text.nl]
            ++ replicate 3 Msg.symbol_prompt
            ++ [Msg.exported default_json_path 1 +:+ Text.nl])
           []
           {[ default_json_path := JsonDump [Sample.H] false 4 ]}).
Proof.
  split; [|vm_compute; reflexivity].
  intros file_path w lines blank rest Hin Hlines Hblank Hsym requested chosen_elements.
  split; [|split; [|split]].
  - unfold export_to_json. run. unfold collect_symbols.
    cbn [w_stdin write_stdout].
    rewrite Hin, (read_symbols_lines _ _ _ [] 0%nat Hlines Hblank).
    cbn [app Nat.add]. unfold get_elements. run. cbn [w_elements].
    rewrite (select_symbols_selected _ _ _ Hsym). unfold write_file. run.
    unfold write_stdout. cbn [w_elements w_stdout w_stdin w_files].
    fold requested. fold chosen_elements.
    by rewrite <- !app_assoc.
  - apply sublist_filter.
  - intros e. unfold chosen_elements, selected. rewrite list_elem_of_filter. tauto.
  - intros requested' Hset. symmetry. by apply selected_same_set.
Qed.

Lemma export_to_json_selection_witness :
  export_to_json "out.json"
    (World [Sample.H; Sample.O; Sample.He] [] [" He "; "H"; "Zz"; "  "; "4"] ∅) =
  (Ok tt,
   World [Sample.H; Sample.O; Sample.He]
         ([Msg.enter_symbols +:+ Text.nl]
          ++ replicate 4 Msg.symbol_prompt
          ++ [Msg.exported "out.json" 2 +:+ Text.nl])
         ["4"]
         {[ "out.json" := JsonDump [Sample.H; Sample.He] false 4 ]}).
Proof.
  rewrite (proj1 (proj1 export_to_json_selection "out.json"
                    (World [Sample.H; Sample.O; Sample.He] []
                           [" He "; "H"; "Zz"; "  "; "4"] ∅)
                    [" He "; "H"; "Zz"] "  " ["4"]
                    eq_refl
                    ltac:(repeat constructor; vm_compute; discriminate)
                    eq_refl
                    ltac:(repeat constructor; eexists; vm_compute; reflexivity))).
  vm_compute. reflexivity.
Defined.

(** * Further properties of the query and export functions *)

(** ** search_element: the missing symbol *)

Lemma search_element_without_symbol_witness :
  search_element [Sample.nonmetals] "AtomicNumber" "8"
    (Sample.world_of [Sample.H; delete "Symbol" Sample.O]) =
  (Raise (KeyError "Symbol"),
   write_stdout (Msg.search_result +:+ Text.nl)
     (Sample.world_of [Sample.H; delete "Symbol" Sample.O])).
Proof.
  apply (search_element_without_symbol [Sample.nonmetals] "AtomicNumber" "8"
           (Sample.world_of [Sample.H; delete "Symbol" Sample.O])
           1%nat (delete "Symbol" Sample.O)).
  - split; [reflexivity|]. split; [reflexivity|].
    intros [|j] e' He' Hj; [|lia].
    injection He' as <-. vm_compute. discriminate.
  - reflexivity.
  - reflexivity.
Defined.

(** ** calculate_average_mass: the filter *)

(** The filter reads the collection and leaves the world alone. *)
Lemma masses_where_world (field : string) (wanted : option string)
    (els : list (gmap string string)) (w0 w : world) :
  masses_where field wanted els w = ((masses_where field wanted els w0).1, w).
Proof.
  induction els as [|e els IH]; [reflexivity|].
  cbn [masses_where]. run. unfold getitem.
  destruct (e !! field) as [v|]; [|reflexivity].
  run. case_bool_decide; [|exact IH]. run.
  destruct (e !! "AtomicMass") as [text|]; [|reflexivity].
  run. unfold py_float. destruct (Float.float_of_string text) as [x|]; [|reflexivity].
  run. rewrite IH.
  destruct (masses_where field wanted els w0) as [[xs|err] w1]; reflexivity.
Qed.

Lemma masses_where_pure (field : string) (wanted : option string)
    (els : list (gmap string string)) :
  ∃ r, ∀ w, masses_where field wanted els w = (r, w).
Proof.
  exists (masses_where field wanted els (World [] [] [] ∅)).1.
  intros w. apply masses_where_world.
Qed.

Lemma masses_where_app_ok (field : string) (wanted : option string)
    (pre rest : list (gmap string string)) (xs : list Float.pyfloat) (w : world) :
  Forall (fun e : gmap string string => is_Some (e !! field)) pre ->
  mapM mass_of (chosen field wanted pre) = Some xs ->
  masses_where field wanted (pre ++ rest) w =
  match masses_where field wanted rest w with
  | (Ok ys, w') => (Ok (xs ++ ys), w')
  | (Raise err, w') => (Raise err, w')
  end.
Proof.
  intros Hall. revert xs.
  induction Hall as [|e pre [v Hv] _ IH]; intros xs Hm.
  - cbn in Hm. injection Hm as <-. cbn [app].
    by destruct (masses_where field wanted rest w) as [[ys|err] w'].
  - cbn [app masses_where]. run. rewrite (run_getitem_Some _ _ _ _ Hv).
    unfold chosen in Hm. rewrite filter_cons in Hm. rewrite Hv in Hm.
    case_bool_decide as Hd.
    + rewrite decide_True in Hm by exact Hd. cbn in Hm. unfold mass_of in Hm.
      destruct (e !! "AtomicMass") as [text|] eqn:Ht;
        cbn [mbind option_bind] in Hm; [|discriminate].
      destruct (Float.float_of_string text) as [x|] eqn:Hx;
        cbn [mbind option_bind] in Hm; [|discriminate].
      destruct (mapM _ (filter _ pre)) as [xs'|] eqn:Hxs;
        cbn [mbind option_bind mret option_ret] in Hm; [|discriminate].
      injection Hm as <-. run. rewrite (run_getitem_Some _ _ _ _ Ht). run.
      unfold py_float. rewrite Hx. run. rewrite (IH xs' Hxs).
      by destruct (masses_where field wanted rest w) as [[ys|err] w'].
    + rewrite decide_False in Hm by exact Hd. by apply IH.
Qed.

(** X2.  Unlike [search_element], [calculate_average_mass] does not skip an
    element that lacks the field it filters by: [element[field]] raises
    [KeyError] at the first such element, provided the rows before it went
    through, and nothing is printed. *)
Theorem calculate_average_mass_missing_field (group period : option string)
    (field : string) (wanted : option string) (w : world)
    (pre post : list (gmap string string)) (e : gmap string string)
    (xs : list Float.pyfloat) :
  one_supplied group period field wanted ->
  w_elements w = pre ++ e :: post ->
  Forall (fun e' : gmap string string => is_Some (e' !! field)) pre ->
  mapM mass_of (chosen field wanted pre) = Some xs ->
  e !! field = None ->
  calculate_average_mass group period w = (Raise (KeyError field), w).
Proof.
  intros Hone Hw Hpre Hxs He.
  rewrite (calculate_average_mass_one _ _ _ _ _ Hone), Hw.
  rewrite (masses_where_app_ok _ _ _ _ _ _ Hpre Hxs).
  cbn [masses_where]. run. by rewrite (run_getitem_None _ _ _ He).
Qed.

Lemma calculate_average_mass_missing_field_witness :
  calculate_average_mass (Some "1") None
    (Sample.world_of [Sample.H; Sample.O; Sample.He]) =
  (Raise (KeyError "Group"), Sample.world_of [Sample.H; Sample.O; Sample.He]).
Proof.
  apply (calculate_average_mass_missing_field (Some "1") None "Group" (Some "1")
           (Sample.world_of [Sample.H; Sample.O; Sample.He])
           [Sample.H] [Sample.He] Sample.O
           [S754_finite false 4539628424389460 (-52)]).
  - left. repeat split; reflexivity.
  - reflexivity.
  - repeat constructor. eexists. vm_compute. reflexivity.
  - vm_compute. reflexivity.
  - reflexivity.
Defined.

Lemma masses_where_chosen (field : string) (wanted : option string)
    (els : list (gmap string string)) (w : world) :
  Forall (fun e : gmap string string => is_Some (e !! field)) els ->
  masses_where field wanted (chosen field wanted els) w =
  masses_where field wanted els w.
Proof.
  induction 1 as [|e els [v Hv] _ IH]; [reflexivity|].
  unfold chosen in *. rewrite filter_cons. rewrite Hv.
  cbn [masses_where]. destruct (decide (Some v = wanted)) as [Hd|Hd].
  - cbn [masses_where]. run. rewrite (run_getitem_Some _ _ _ _ Hv).
    rewrite bool_decide_eq_true_2 by exact Hd. run.
    unfold getitem. destruct (e !! "AtomicMass") as [text|]; [|reflexivity].
    run. unfold py_float. destruct (Float.float_of_string text); [|reflexivity].
    run. by rewrite IH.
  - run. rewrite (run_getitem_Some _ _ _ _ Hv).
    rewrite bool_decide_eq_false_2 by exact Hd. exact IH.
Qed.

Lemma report_average_with_elements (xs : list Float.pyfloat)
    (els : list (gmap string string)) (w : world) :
  report_average xs (with_elements els w) =
  ((report_average xs w).1, with_elements els (report_average xs w).2).
Proof.
  unfold report_average. destruct xs as [|x xs]; [reflexivity|].
  destruct (Float.mean (x :: xs)); reflexivity.
Qed.

(** X3.  Only the elements that pass the filter count.  When every element
    has the field filtered by, the call on the whole collection returns and
    prints what the call on the kept elements alone does: a missing or
    malformed [AtomicMass] in a row that is filtered out is never read. *)
Theorem calculate_average_mass_only_chosen (group period : option string)
    (field : string) (wanted : option string) (w : world) :
  one_supplied group period field wanted ->
  Forall (fun e : gmap string string => is_Some (e !! field)) (w_elements w) ->
  calculate_average_mass group period
    (with_elements (chosen field wanted (w_elements w)) w) =
  ((calculate_average_mass group period w).1,
   with_elements (chosen field wanted (w_elements w))
     (calculate_average_mass group period w).2).
Proof.
  intros Hone Hall. rewrite !(calculate_average_mass_one _ _ _ _ _ Hone).
  cbn [with_elements w_elements]. rewrite (masses_where_chosen _ _ _ _ Hall).
  destruct (masses_where_pure field wanted (w_elements w)) as [r Hr].
  rewrite !Hr. destruct r as [xs|err]; [|reflexivity].
  apply report_average_with_elements.
Qed.

Lemma calculate_average_mass_only_chosen_witness :
  let w := Sample.world_of
             [Sample.H; <["AtomicMass" := "?"]> Sample.O; Sample.He;
              delete "AtomicMass" Sample.O_padded] in
  calculate_average_mass None (Some "1")
    (with_elements (chosen "Period" (Some "1") (w_elements w)) w) =
  ((calculate_average_mass None (Some "1") w).1,
   with_elements (chosen "Period" (Some "1") (w_elements w))
     (calculate_average_mass None (Some "1") w).2).
Proof.
  intros w.
  apply (calculate_average_mass_only_chosen None (Some "1") "Period" (Some "1") w).
  - right. repeat split; reflexivity.
  - repeat constructor; eexists; vm_compute; reflexivity.
Defined.

(** ** calculate_average_mass: the order of the rows *)

Lemma sum_Permutation (qs qs' : list Q) :
  qs ≡ₚ qs' ->
  (fold_right Qplus (0 # 1) qs == fold_right Qplus (0 # 1) qs')%Q.
Proof.
  induction 1 as [|q qs qs' _ IH|p q qs|qs1 qs2 qs3 _ IH1 _ IH2]; cbn.
  - reflexivity.
  - by rewrite IH.
  - rewrite !Qplus_assoc. by rewrite (Qplus_comm q p).
  - by rewrite IH1.
Qed.

Lemma exact_mean_Permutation (data data' : list Float.pyfloat) :
  data ≡ₚ data' -> Float.exact_mean data = Float.exact_mean data'.
Proof.
  intros Hp. unfold Float.exact_mean, Float.exact_sum. apply Qred_complete.
  rewrite (Permutation_length Hp).
  apply Qdiv_comp; [|reflexivity].
  apply sum_Permutation. by apply omap_Permutation.
Qed.

Lemma SFadd_special_closed (acc x : Float.pyfloat) :
  sticky acc -> Float.is_finite x = false ->
  Float.is_finite (SFadd Float.prec Float.emax acc x) = false.
Proof.
  intros [->|Hacc] Hx.
  - by destruct x as [| [] | |].
  - destruct acc as [| [] | |], x as [| [] | |]; done.
Qed.

Lemma SFadd_special_swap (acc x y : Float.pyfloat) :
  sticky acc -> Float.is_finite x = false -> Float.is_finite y = false ->
  SFadd Float.prec Float.emax (SFadd Float.prec Float.emax acc x) y =
  SFadd Float.prec Float.emax (SFadd Float.prec Float.emax acc y) x.
Proof.
  intros [->|Hacc] Hx Hy.
  - by destruct x as [| [] | |], y as [| [] | |].
  - destruct acc as [| [] | |], x as [| [] | |], y as [| [] | |]; done.
Qed.

Lemma fold_special_Permutation (l l' : list Float.pyfloat) :
  l ≡ₚ l' ->
  Forall (fun x => Float.is_finite x = false) l ->
  ∀ acc, sticky acc ->
    fold_left (SFadd Float.prec Float.emax) l acc =
    fold_left (SFadd Float.prec Float.emax) l' acc.
Proof.
  induction 1 as [|x l l' _ IH|x y l|l1 l2 l3 Hp12 IH1 _ IH2];
    intros Hall acc Hacc; cbn [fold_left].
  - reflexivity.
  - apply Forall_cons in Hall as [Hx Hall].
    apply IH; [exact Hall|]. right. by apply SFadd_special_closed.
  - apply Forall_cons in Hall as [Hy Hall].
    apply Forall_cons in Hall as [Hx Hall].
    by rewrite (SFadd_special_swap acc y x).
  - rewrite IH1 by done. apply IH2; [|done].
    eapply Forall_forall. intros x Hx. rewrite <- Hp12 in Hx.
    by eapply Forall_forall in Hall.
Qed.

Lemma mean_Permutation (data data' : list Float.pyfloat) :
  data ≡ₚ data' -> Float.mean data = Float.mean data'.
Proof.
  intros Hp. unfold Float.mean.
  destruct data as [|x data], data' as [|x' data'].
  - reflexivity.
  - by apply Permutation_nil_cons in Hp.
  - symmetry in Hp. by apply Permutation_nil_cons in Hp.
  - assert (Hf : filter (fun y => Float.is_finite y = false) (x :: data)
                 ≡ₚ filter (fun y => Float.is_finite y = false) (x' :: data'))
      by (by apply filter_Permutation).
    destruct (filter _ (x :: data)) as [|s special] eqn:Hs,
             (filter _ (x' :: data')) as [|s' special'] eqn:Hs'.
    + by rewrite (exact_mean_Permutation _ _ Hp).
    + by apply Permutation_nil_cons in Hf.
    + symmetry in Hf. by apply Permutation_nil_cons in Hf.
    + f_equal. apply fold_special_Permutation; [exact Hf| |by left].
      rewrite <- Hs. apply Forall_forall. intros y Hy.
      by apply list_elem_of_filter in Hy as [Hy _].
Qed.

Lemma mapM_Permutation {A B : Type} (f : A -> option B) (l l' : list A)
    (xs : list B) :
  l ≡ₚ l' -> mapM f l = Some xs -> ∃ xs', mapM f l' = Some xs' ∧ xs ≡ₚ xs'.
Proof.
  intros Hp. revert xs.
  induction Hp as [|a l l' _ IH|a b l|l1 l2 l3 _ IH1 _ IH2]; intros xs Hm.
  - exists xs. by split.
  - cbn in Hm. destruct (f a) as [y|] eqn:Hy; cbn in Hm; [|discriminate].
    destruct (mapM f l) as [ys|] eqn:Hys; cbn in Hm; [|discriminate].
    injection Hm as <-. destruct (IH ys eq_refl) as (ys' & Hys' & Hperm).
    exists (y :: ys'). cbn. rewrite Hy. cbn. rewrite Hys'. cbn.
    split; [reflexivity|by constructor].
  - cbn in Hm. destruct (f b) as [y|] eqn:Hy; cbn in Hm; [|discriminate].
    destruct (f a) as [z|] eqn:Hz; cbn in Hm; [|discriminate].
    destruct (mapM f l) as [ys|] eqn:Hys; cbn in Hm; [|discriminate].
    injection Hm as <-. exists (z :: y :: ys). cbn. rewrite Hy, Hz. cbn.
    rewrite Hys. cbn. split; [reflexivity|by constructor].
  - destruct (IH1 xs Hm) as (xs2 & Hm2 & Hp2).
    destruct (IH2 xs2 Hm2) as (xs3 & Hm3 & Hp3).
    exists xs3. split; [exact Hm3|by etrans].
Qed.

Lemma report_average_Permutation (xs xs' : list Float.pyfloat) (w : world) :
  xs ≡ₚ xs' -> report_average xs w = report_average xs' w.
Proof.
  intros Hp. unfold report_average.
  rewrite (mean_Permutation _ _ Hp).
  destruct xs as [|x xs], xs' as [|x' xs']; try reflexivity.
  - by apply Permutation_nil_cons in Hp.
  - symmetry in Hp. by apply Permutation_nil_cons in Hp.
Qed.

(** X4.  The average does not depend on the order of the rows.  When the
    call succeeds on a collection, it returns the same number and prints the
    same text on every rearrangement of it: [statistics.mean] adds the exact
    values, so no rounding depends on the order of the sum. *)
Theorem calculate_average_mass_order_independent (group period : option string)
    (field : string) (wanted : option string) (w : world)
    (els' : list (gmap string string)) (masses : list Float.pyfloat) :
  one_supplied group period field wanted ->
  Forall (fun e : gmap string string => is_Some (e !! field)) (w_elements w) ->
  mapM mass_of (chosen field wanted (w_elements w)) = Some masses ->
  w_elements w ≡ₚ els' ->
  calculate_average_mass group period (with_elements els' w) =
  ((calculate_average_mass group period w).1,
   with_elements els' (calculate_average_mass group period w).2).
Proof.
  intros Hone Hall Hm Hp. rewrite !(calculate_average_mass_one _ _ _ _ _ Hone).
  cbn [with_elements w_elements].
  rewrite (masses_where_ok _ _ _ _ w Hall Hm).
  assert (Hc : chosen field wanted (w_elements w) ≡ₚ chosen field wanted els')
    by (by apply filter_Permutation).
  destruct (mapM_Permutation _ _ _ _ Hc Hm) as (masses' & Hm' & Hpm).
  rewrite (masses_where_ok _ _ _ masses'); [| |exact Hm'].
  - rewrite <- (report_average_Permutation _ _ _ Hpm).
    apply report_average_with_elements.
  - apply Forall_forall. intros e He. rewrite <- Hp in He.
    by eapply Forall_forall in Hall.
Qed.

Lemma calculate_average_mass_order_independent_witness :
  let w := Sample.world_of [Sample.H; Sample.O; Sample.He] in
  calculate_average_mass None (Some "1")
    (with_elements [Sample.He; Sample.H; Sample.O] w) =
  ((calculate_average_mass None (Some "1") w).1,
   with_elements [Sample.He; Sample.H; Sample.O]
     (calculate_average_mass None (Some "1") w).2).
Proof.
  intros w.
  apply (calculate_average_mass_order_independent None (Some "1") "Period"
           (Some "1") w [Sample.He; Sample.H; Sample.O]
           [S754_finite false 4539628424389460 (-52);
            S754_finite false 4506526967128287 (-50)]).
  - right. repeat split; reflexivity.
  - repeat constructor; eexists; vm_compute; reflexivity.
  - vm_compute. reflexivity.
  - cbn. rewrite (Permutation_swap Sample.H Sample.He [Sample.O]).
    apply Permutation_skip. apply Permutation_swap.
Defined.

(** ** export_to_json: the failures and the full export *)

Lemma read_symbols_eof (lines acc : list string) (n : nat) :
  Forall (fun line => Text.strip line ≠ "") lines ->
  read_symbols acc n lines = (Raise EOFError, (n + S (length lines))%nat, []).
Proof.
  intros Hlines. revert acc n.
  induction Hlines as [|line lines Hline _ IH]; intros acc n.
  - cbn. by replace (n + 1)%nat with (S n) by lia.
  - cbn [read_symbols]. apply String.eqb_neq in Hline. rewrite Hline.
    rewrite IH. cbn [length].
    by replace (S n + S (length lines))%nat with (n + S (S (length lines)))%nat by lia.
Qed.

(** X5.  When the input ends before an empty line has been entered,
    [export_to_json] ends in [EOFError]: every line has been read and
    prompted for, no file is written and the collection is as it was. *)
Theorem export_to_json_end_of_input (file_path : string) (w : world) :
  Forall (fun line => Text.strip line ≠ "") (w_stdin w) ->
  export_to_json file_path w =
  (Raise EOFError,
   World (w_elements w)
         (w_stdout w
          ++ [Msg.enter_symbols +:+ Text.nl]
          ++ replicate (S (length (w_stdin w))) Msg.symbol_prompt)
         []
         (w_files w)).
Proof.
  intros Hlines. unfold export_to_json. run. unfold collect_symbols.
  cbn [w_stdin write_stdout].
  rewrite (read_symbols_eof _ [] 0%nat Hlines).
  unfold write_stdout. cbn [Nat.add w_elements w_stdout w_stdin w_files].
  by rewrite <- app_assoc.
Qed.

Lemma export_to_json_end_of_input_witness :
  export_to_json "out.json" (World [Sample.H] [] ["H"; " He"] ∅) =
  (Raise EOFError,
   World [Sample.H]
         ([] ++ [Msg.enter_symbols +:+ Text.nl]
             ++ replicate 3 Msg.symbol_prompt)
         [] ∅).
Proof.
  apply (export_to_json_end_of_input "out.json" (World [Sample.H] [] ["H"; " He"] ∅)).
  repeat constructor; vm_compute; discriminate.
Defined.

Lemma select_symbols_missing (requested : list string)
    (els : list (gmap string string)) (w : world) :
  Exists (fun e : gmap string string => e !! "Symbol" = None) els ->
  select_symbols requested els w = (Raise (KeyError "Symbol"), w).
Proof.
  induction els as [|e els IH]; intros Hex; [by apply Exists_nil in Hex|].
  cbn [select_symbols]. run. unfold getitem.
  destruct (e !! "Symbol") as [symbol|] eqn:Hs; [|reflexivity].
  apply Exists_cons in Hex as [He|Hex]; [congruence|].
  run. case_bool_decide; [|by apply IH]. run. by rewrite IH.
Qed.

(** X6.  One element without a [Symbol] makes the whole export fail: the
    symbols are read first, then [element["Symbol"]] raises [KeyError]
    before the file is opened, so that no file is written, whatever was
    requested. *)
Theorem export_to_json_missing_symbol (file_path : string) (w : world)
    (lines : list string) (blank : string) (rest : list string) :
  w_stdin w = lines ++ blank :: rest ->
  Forall (fun line => Text.strip line ≠ "") lines ->
  Text.strip blank = "" ->
  Exists (fun e : gmap string string => e !! "Symbol" = None) (w_elements w) ->
  export_to_json file_path w =
  (Raise (KeyError "Symbol"),
   World (w_elements w)
         (w_stdout w
          ++ [Msg.enter_symbols +:+ Text.nl]
          ++ replicate (S (length lines)) Msg.symbol_prompt)
         rest
         (w_files w)).
Proof.
  intros Hin Hlines Hblank Hex. unfold export_to_json. run. unfold collect_symbols.
  cbn [w_stdin write_stdout].
  rewrite Hin, (read_symbols_lines _ _ _ [] 0%nat Hlines Hblank).
  cbn [app Nat.add]. unfold get_elements. run. cbn [w_elements].
  rewrite select_symbols_missing by exact Hex.
  unfold write_stdout. cbn [w_elements w_stdout w_stdin w_files].
  by rewrite <- app_assoc.
Qed.

Lemma export_to_json_missing_symbol_witness :
  export_to_json "out.json"
    (World [Sample.H; delete "Symbol" Sample.He] [] ["H"; ""; "x"] ∅) =
  (Raise (KeyError "Symbol"),
   World [Sample.H; delete "Symbol" Sample.He]
         ([] ++ [Msg.enter_symbols +:+ Text.nl]
             ++ replicate 2 Msg.symbol_prompt)
         ["x"] ∅).
Proof.
  apply (export_to_json_missing_symbol "out.json"
           (World [Sample.H; delete "Symbol" Sample.He] [] ["H"; ""; "x"] ∅)
           ["H"] "" ["x"]).
  - reflexivity.
  - repeat constructor; vm_compute; discriminate.
  - reflexivity.
  - right. left. reflexivity.
Defined.

Lemma selected_all (requested : list string) (els : list (gmap string string)) :
  Forall (requested_symbol requested) els -> selected requested els = els.
Proof.
  induction 1 as [|e els He _ IH]; [reflexivity|].
  unfold selected in *. by rewrite filter_cons_True, IH.
Qed.

(** X7.  Asked for the symbol of every element, [export_to_json] writes the
    whole collection, as it is: every record, with all its fields, in the
    order of the collection. *)
Theorem export_to_json_everything (file_path : string) (w : world)
    (lines : list string) (blank : string) (rest : list string) :
  w_stdin w = lines ++ blank :: rest ->
  Forall (fun line => Text.strip line ≠ "") lines ->
  Text.strip blank = "" ->
  Forall (requested_symbol (Text.strip <$> lines)) (w_elements w) ->
  ∃ w',
    export_to_json file_path w = (Ok tt, w')
    ∧ w_files w' !! file_path = Some (JsonDump (w_elements w) false 4)
    ∧ w_elements w' = w_elements w
    ∧ w_stdin w' = rest.
Proof.
  intros Hin Hlines Hblank Hall. unfold export_to_json. run. unfold collect_symbols.
  cbn [w_stdin write_stdout].
  rewrite Hin, (read_symbols_lines _ _ _ [] 0%nat Hlines Hblank).
  cbn [app Nat.add]. unfold get_elements. run.
  unfold write_stdout. cbn [w_elements w_stdout w_stdin w_files].
  rewrite select_symbols_selected.
  - rewrite (selected_all _ _ Hall). unfold write_file. run.
    eexists. split; [reflexivity|]. cbn. by rewrite lookup_insert_eq.
  - eapply Forall_impl; [exact Hall|]. intros e (symbol & Hs & _). by exists symbol.
Qed.

Lemma export_to_json_everything_witness :
  ∃ w',
    export_to_json "out.json"
      (World [Sample.H; Sample.He] [] ["He"; "H "; "He"; " "] ∅) = (Ok tt, w')
    ∧ w_files w' !! "out.json" = Some (JsonDump [Sample.H; Sample.He] false 4)
    ∧ w_elements w' = [Sample.H; Sample.He]
    ∧ w_stdin w' = [].
Proof.
  apply (export_to_json_everything "out.json"
           (World [Sample.H; Sample.He] [] ["He"; "H "; "He"; " "] ∅)
           ["He"; "H "; "He"] " " []).
  - reflexivity.
  - repeat constructor; vm_compute; discriminate.
  - reflexivity.
  - repeat constructor.
    + exists "H". split; [reflexivity|].
      apply (bool_decide_unpack _). vm_compute. exact I.
    + exists "He". split; [reflexivity|].
      apply (bool_decide_unpack _). vm_compute. exact I.
Defined.

(** ** find_group: tables put one after the other *)

(** X8.  A symbol resolved by a table keeps its label when more groups are
    added after the table, and a symbol the table does not hold is resolved
    by what is added: the groups of the first table always take precedence. *)
Theorem find_group_app (groups more : list group) (symbol : string) :
  (Exists (fun g => symbol ∈ elements g) groups ->
   find_group (groups ++ more) symbol = find_group groups symbol)
  ∧ (Forall (fun g => symbol ∉ elements g) groups ->
     find_group (groups ++ more) symbol = find_group more symbol).
Proof.
  split; [|apply find_group_skip].
  induction groups as [|g groups IH]; intros Hex; [by apply Exists_nil in Hex|].
  cbn [app find_group]. case_bool_decide as Hg; [reflexivity|].
  apply Exists_cons in Hex as [Hin|Hex]; [done|]. by apply IH.
Qed.

Lemma find_group_app_witness :
  find_group ([Sample.nonmetals] ++ [Sample.gases]) "O" = find_group [Sample.nonmetals] "O"
  ∧ find_group ([Sample.nonmetals] ++ [Sample.gases]) "He" = find_group [Sample.gases] "He".
Proof.
  split.
  - apply (proj1 (find_group_app [Sample.nonmetals] [Sample.gases] "O")).
    left. apply (bool_decide_unpack _). vm_compute. exact I.
  - apply (proj2 (find_group_app [Sample.nonmetals] [Sample.gases] "He")).
    repeat constructor. apply (bool_decide_unpack _). vm_compute. exact I.
Defined.

(** * Properties of the display and the reports *)

Lemma run_bind_T {A B : Type} (m : T A) (f : A -> T B) (s : machine) :
  ((m ≫= f) : T B) s =
  match m s with
  | (Ok a, s') => f a s'
  | (Raise e, s') => (Raise e, s')
  end.
Proof. reflexivity. Qed.

Lemma run_ret_T {A : Type} (a : A) (s : machine) : (mret a : T A) s = (Ok a, s).
Proof. reflexivity. Qed.

Lemma run_lift {A : Type} (m : M A) (s : machine) :
  lift m s = ((m (m_world s)).1, Machine (m (m_world s)).2 (m_texts s)).
Proof. unfold lift. by destruct (m (m_world s)). Qed.

Ltac runT :=
  repeat (progress (rewrite ?run_bind_T, ?run_ret_T, ?run_lift, ?run_bind,
                      ?run_print, ?run_ret; cbn beta iota delta [fst snd])).

Lemma append_assoc (a b c : string) : (a +:+ b) +:+ c = a +:+ (b +:+ c).
Proof.
  induction a as [|x a IH]; [reflexivity|].
  change (String x ((a +:+ b) +:+ c) = String x (a +:+ (b +:+ c))).
  by rewrite IH.
Qed.

Lemma append_empty_r (a : string) : a +:+ "" = a.
Proof.
  induction a as [|x a IH]; [reflexivity|].
  change (String x (a +:+ "") = String x a). by rewrite IH.
Qed.

(** ** display_element *)

Lemma print_items_lines (items : list (string * string)) (w : world) :
  print_items items w =
  (Ok tt,
   World (w_elements w)
         (w_stdout w ++ ((fun item => property_line item +:+ Text.nl) <$> items))
         (w_stdin w) (w_files w)).
Proof.
  revert w. induction items as [|item items IH]; intros w.
  - cbn. rewrite app_nil_r. by destruct w.
  - cbn [print_items]. run. rewrite IH. unfold write_stdout.
    cbn [w_elements w_stdout w_stdin w_files fmap list_fmap].
    by rewrite <- app_assoc.
Qed.

Lemma display_element_lines (keys : list string) (element : gmap string string)
    (w : world) :
  element ≠ ∅ ->
  display_element keys element w =
  (Ok tt,
   World (w_elements w)
         (w_stdout w
          ++ [Txt.properties_head +:+ Text.nl]
          ++ ((fun item => property_line item +:+ Text.nl)
                <$> dict_items keys element)
          ++ [Txt.properties_foot +:+ Text.nl])
         (w_stdin w) (w_files w)).
Proof.
  intros Hne. unfold display_element. rewrite bool_decide_eq_true_2 by exact Hne.
  run. rewrite print_items_lines. run. unfold write_stdout.
  cbn [w_elements w_stdout w_stdin w_files]. by rewrite <- !app_assoc.
Qed.

(** X9.  A search that finds nothing, followed by the display of its
    result, as options 1 and 2 of the menu do: [display_element] takes the
    empty dict for "no element", so the two not-found texts are printed,
    one by each function, and nothing else happens. *)
Theorem search_then_display_not_found (fieldnames : list string)
    (groups : list group) (criterion value : string) (w : world) :
  Forall (fun e : gmap string string => e !! criterion ≠ Some value) (w_elements w) ->
  (search_element groups criterion value ≫= display_result fieldnames) w =
  (Ok tt,
   write_stdout (Txt.no_element +:+ Text.nl)
     (write_stdout (Msg.not_found +:+ Text.nl) w)).
Proof.
  intros Hnone. run. rewrite (search_element_no_match _ _ _ _ Hnone).
  reflexivity.
Qed.

Lemma search_then_display_not_found_witness :
  (search_element [Sample.nonmetals] "Symbol" "Xx" ≫= display_result ["Symbol"])
    (Sample.world_of [Sample.H; Sample.He]) =
  (Ok tt,
   write_stdout (Txt.no_element +:+ Text.nl)
     (write_stdout (Msg.not_found +:+ Text.nl)
        (Sample.world_of [Sample.H; Sample.He]))).
Proof.
  apply (search_then_display_not_found ["Symbol"] [Sample.nonmetals] "Symbol" "Xx"
           (Sample.world_of [Sample.H; Sample.He])).
  repeat constructor; vm_compute; discriminate.
Defined.

Lemma first_occurrences_elem (keys : list string) (key : string) :
  key ∈ first_occurrences keys ↔ key ∈ keys.
Proof.
  induction keys as [|k rest IH]; [done|]. cbn [first_occurrences].
  rewrite !elem_of_cons, list_elem_of_filter, IH.
  destruct (decide (key = k)); tauto.
Qed.

Lemma first_occurrences_NoDup (keys : list string) :
  NoDup (first_occurrences keys).
Proof.
  induction keys as [|k rest IH]; [constructor|]. cbn [first_occurrences].
  constructor; [|by apply NoDup_filter].
  rewrite list_elem_of_filter. tauto.
Qed.

Lemma first_occurrences_snoc (keys : list string) (key : string) :
  first_occurrences (keys ++ [key]) =
  first_occurrences keys ++ (if decide (key ∈ keys) then [] else [key]).
Proof.
  induction keys as [|k rest IH].
  - cbn. rewrite decide_False; [done|]. apply not_elem_of_nil.
  - cbn [app first_occurrences]. rewrite IH, filter_app. cbn [app]. f_equal. f_equal.
    destruct (decide (key ∈ rest)) as [Hin|Hout].
    + rewrite decide_True by (by apply list_elem_of_further). done.
    + destruct (decide (key = k)) as [->|Hne].
      * rewrite decide_True by apply list_elem_of_here.
        by rewrite filter_cons_False by (intros Hk; by apply Hk).
      * rewrite decide_False by (rewrite elem_of_cons; tauto).
        by rewrite filter_cons_True by exact Hne.
Qed.

Lemma keys_of_map (e : gmap string string) (key : string) :
  key ∈ (map_to_list e).*1 ↔ is_Some (e !! key).
Proof.
  rewrite list_elem_of_fmap. split.
  - intros ([k v] & -> & Hin). apply elem_of_map_to_list in Hin. by exists v.
  - intros [v Hv]. exists (key, v). split; [done|by apply elem_of_map_to_list].
Qed.

(** The order [main] displays an element in names every key, once. *)
Lemma keys_in_order_enumerates (fieldnames : list string)
    (e : gmap string string) :
  enumerates (keys_in_order fieldnames e) e.
Proof.
  unfold keys_in_order.
  set (listed := first_occurrences
                   (filter (fun key => is_Some (e !! key)) (fieldnames ++ ["Group"]))).
  assert (Hlisted : ∀ key, key ∈ listed -> is_Some (e !! key)).
  { intros key Hin. apply first_occurrences_elem, list_elem_of_filter in Hin.
    by destruct Hin. }
  split.
  - apply NoDup_app. split; [apply first_occurrences_NoDup|]. split.
    + intros key Hin Hrest. apply list_elem_of_filter in Hrest as [Hout _].
      exact (Hout Hin).
    + apply NoDup_filter, NoDup_fst_map_to_list.
  - intros key. rewrite elem_of_app, list_elem_of_filter, keys_of_map. split.
    + intros [Hin|[_ Hk]]; [by apply Hlisted|exact Hk].
    + intros Hk. destruct (decide (key ∈ listed)); [by left|by right].
Qed.

(** When the field names and [Group] cover the keys of an element, the
    order is that of the field names, with [Group] last if it is not one of
    them. *)
Lemma keys_in_order_listed (fieldnames : list string) (e : gmap string string) :
  (∀ key, is_Some (e !! key) -> key ∈ fieldnames ++ ["Group"]) ->
  keys_in_order fieldnames e =
  first_occurrences
    (filter (fun key => is_Some (e !! key)) (fieldnames ++ ["Group"])).
Proof.
  intros Hcover. unfold keys_in_order.
  set (listed := first_occurrences _).
  assert (Hnone : ∀ keys : list string,
             Forall (fun key => is_Some (e !! key)) keys ->
             filter (fun key => key ∉ listed) keys = []).
  { induction 1 as [|key keys Hk _ IH]; [done|].
    rewrite filter_cons_False; [exact IH|]. intros Hout. apply Hout.
    apply first_occurrences_elem, list_elem_of_filter. split; [exact Hk|].
    by apply Hcover. }
  rewrite Hnone; [by rewrite app_nil_r|].
  apply Forall_forall. intros key Hin. by apply keys_of_map.
Qed.

(** A row of the CSV file has the field names for its keys: it is shown in
    their order. *)
Lemma dict_of_row_keys (fieldnames row : list string) (key : string) :
  length row = length fieldnames ->
  is_Some (dict_of_row fieldnames row !! key) ↔ key ∈ fieldnames.
Proof.
  intros Hlen. unfold dict_of_row.
  rewrite <- not_eq_None_Some, <- not_elem_of_list_to_map.
  rewrite fmap_reverse, elem_of_reverse, fst_zip by lia.
  split; [apply dec_stable|tauto].
Qed.

Lemma keys_in_order_row (fieldnames row : list string) :
  length row = length fieldnames ->
  keys_in_order fieldnames (dict_of_row fieldnames row) =
  first_occurrences fieldnames.
Proof.
  intros Hlen. rewrite keys_in_order_listed.
  - rewrite filter_app.
    assert (Hall : ∀ keys : list string,
               Forall (fun key => key ∈ fieldnames) keys ->
               filter (fun key => is_Some (dict_of_row fieldnames row !! key)) keys
               = keys).
    { induction 1 as [|key keys Hk _ IH]; [done|].
      rewrite filter_cons_True by (by apply dict_of_row_keys). by rewrite IH. }
    rewrite Hall by (by apply Forall_forall).
    destruct (decide ("Group" ∈ fieldnames)) as [Hin|Hout].
    + rewrite filter_cons_True by (by apply dict_of_row_keys). rewrite filter_nil.
      by rewrite first_occurrences_snoc, decide_True, app_nil_r by exact Hin.
    + rewrite filter_cons_False by (by rewrite dict_of_row_keys).
      by rewrite filter_nil, app_nil_r.
  - intros key Hk. apply elem_of_app. left. by apply dict_of_row_keys in Hk.
Qed.

(** Once [search_element] has added [Group] to a row, [Group] is shown
    last. *)
Lemma keys_in_order_row_group (fieldnames row : list string) (label : string) :
  length row = length fieldnames ->
  "Group" ∉ fieldnames ->
  keys_in_order fieldnames (<["Group" := label]> (dict_of_row fieldnames row)) =
  first_occurrences fieldnames ++ ["Group"].
Proof.
  intros Hlen Hout.
  assert (Hkeys : ∀ key,
             is_Some (<["Group" := label]> (dict_of_row fieldnames row) !! key)
             ↔ key ∈ fieldnames ++ ["Group"]).
  { intros key. rewrite lookup_insert_is_Some, dict_of_row_keys by exact Hlen.
    rewrite elem_of_app, list_elem_of_singleton.
    destruct (decide (key = "Group")) as [->|Hne]; [tauto|].
    split; [intros [?|[_ ?]]; [congruence|by left]|intros [?|?]; [right|]; done]. }
  rewrite keys_in_order_listed by (intros key; apply Hkeys).
  assert (Hall : ∀ keys : list string,
             Forall (fun key => key ∈ fieldnames ++ ["Group"]) keys ->
             filter (fun key =>
                       is_Some (<["Group" := label]> (dict_of_row fieldnames row) !! key))
                    keys = keys).
  { induction 1 as [|key keys Hk _ IH]; [done|].
    rewrite filter_cons_True by (by apply Hkeys). by rewrite IH. }
  rewrite Hall by (by apply Forall_forall).
  by rewrite first_occurrences_snoc, decide_False by exact Hout.
Qed.

Lemma dict_items_enumerated (keys : list string) (e : gmap string string) :
  (∀ key, key ∈ keys -> is_Some (e !! key)) ->
  dict_items keys e = (fun key => (key, field_text e key)) <$> keys.
Proof.
  unfold dict_items, field_text. induction keys as [|key keys IH]; intros Hall; [done|].
  cbn [omap list_omap fmap list_fmap].
  destruct (Hall key (list_elem_of_here _ _)) as [v Hv]. rewrite Hv. cbn.
  f_equal. apply IH. intros k Hk. apply Hall. by apply list_elem_of_further.
Qed.

Lemma property_lines_items (keys : list string) (e : gmap string string) :
  enumerates keys e ->
  property_lines e keys
    ≡ₚ (fun item => property_line item +:+ Text.nl) <$> map_to_list e.
Proof.
  intros [Hnd Hkeys].
  assert (Hperm : keys ≡ₚ (map_to_list e).*1).
  { apply NoDup_Permutation; [exact Hnd|apply NoDup_fst_map_to_list|].
    intros key. by rewrite Hkeys, keys_of_map. }
  unfold property_lines. rewrite Hperm, <- list_fmap_compose.
  match goal with |- ?a ≡ₚ ?b => assert (a = b) as ->; [|done] end.
  apply Forall_fmap_ext_1, Forall_forall.
  intros [k v] Hin. apply elem_of_map_to_list in Hin. cbn.
  unfold field_text. by rewrite Hin.
Qed.

Lemma display_element_shown (keys : list string) (e : gmap string string)
    (w : world) :
  e ≠ ∅ ->
  (∀ key, key ∈ keys -> is_Some (e !! key)) ->
  display_element keys e w = (Ok tt, shown (property_lines e keys) w).
Proof.
  intros Hne Hkeys. rewrite display_element_lines by exact Hne.
  unfold shown, property_lines.
  by rewrite (dict_items_enumerated keys e Hkeys), <- list_fmap_compose.
Qed.

(** X10.  The display of an element that [search_element] has returned.
    Whatever the order in which the dict yields its keys, every key once,
    [display_element] prints the heading, then one line for every field of
    the element in that order, the padded name and the value, and then the
    closing line; the no-element text is not printed.  The lines are, up to
    their order, one for each field the element has, and the one for [Group]
    carries the label the search left in the element.  The order [main] is
    modelled with is such an order. *)
Theorem search_then_display_group (fieldnames : list string)
    (groups : list group) (criterion value : string) (w w' : world) (i : nat) :
  search_element groups criterion value w = (Ok (Elem i), w') ->
  ∃ e' label,
    w_elements w' !! i = Some e'
    ∧ e' !! "Group" = Some label
    ∧ (∀ keys,
         enumerates keys e' ->
         display_element keys e' w' = (Ok tt, shown (property_lines e' keys) w')
         ∧ property_lines e' keys
             ≡ₚ (fun item => property_line item +:+ Text.nl) <$> map_to_list e'
         ∧ (property_line ("Group", label) +:+ Text.nl) ∈ property_lines e' keys)
    ∧ enumerates (keys_in_order fieldnames e') e'
    ∧ display_result fieldnames (Elem i) w' =
      (Ok tt, shown (property_lines e' (keys_in_order fieldnames e')) w').
Proof.
  intros Hr. apply search_element_returns_elem in Hr as (e & (Hi & _ & _) & Hr).
  assert (∃ e' label, w_elements w' !! i = Some e' ∧ e' !! "Group" = Some label)
    as (e' & label & Hi' & Hlabel).
  { unfold found in Hr. destruct (truthy (e !! "Group")) eqn:Hg.
    - injection Hr as <-. destruct (e !! "Group") as [label|] eqn:He; [|discriminate].
      exists e, label. by split.
    - destruct (e !! "Symbol") as [symbol|]; [|discriminate]. injection Hr as <-.
      exists (<["Group" := find_group groups symbol]> e), (find_group groups symbol).
      cbn. rewrite list_lookup_alter_eq, Hi. split; [reflexivity|].
      by rewrite lookup_insert_eq. }
  assert (Hne : e' ≠ ∅) by (intros ->; by rewrite lookup_empty in Hlabel).
  assert (Hshow : ∀ keys, enumerates keys e' ->
            display_element keys e' w' = (Ok tt, shown (property_lines e' keys) w')).
  { intros keys [_ Hkeys]. apply display_element_shown; [exact Hne|].
    intros key Hin. by apply Hkeys. }
  exists e', label. split; [exact Hi'|]. split; [exact Hlabel|]. split; [|split].
  - intros keys Henum. split; [by apply Hshow|]. split.
    + by apply property_lines_items.
    + unfold property_lines.
      apply (list_elem_of_fmap_2'
               (fun key => property_line (key, field_text e' key) +:+ Text.nl)
               keys "Group").
      * apply Henum. by rewrite Hlabel.
      * unfold field_text. by rewrite Hlabel.
  - apply keys_in_order_enumerates.
  - unfold display_result. cbn [deref]. rewrite Hi'. cbn [default].
    apply Hshow, keys_in_order_enumerates.
Qed.

Lemma search_then_display_group_witness :
  let w := Sample.world_of [Sample.H; Sample.O] in
  let w' := World (alter (insert "Group" "Nekovy") 1%nat [Sample.H; Sample.O])
                  [Msg.search_result +:+ Text.nl] [] ∅ in
  ∃ e' label,
    w_elements w' !! 1%nat = Some e'
    ∧ e' !! "Group" = Some label
    ∧ (∀ keys,
         enumerates keys e' ->
         display_element keys e' w' = (Ok tt, shown (property_lines e' keys) w')
         ∧ property_lines e' keys
             ≡ₚ (fun item => property_line item +:+ Text.nl) <$> map_to_list e'
         ∧ (property_line ("Group", label) +:+ Text.nl) ∈ property_lines e' keys)
    ∧ enumerates (keys_in_order ["Symbol"; "AtomicNumber"] e') e'
    ∧ display_result ["Symbol"; "AtomicNumber"] (Elem 1%nat) w' =
      (Ok tt, shown (property_lines e' (keys_in_order ["Symbol"; "AtomicNumber"] e')) w').
Proof.
  intros w w'.
  apply (search_then_display_group ["Symbol"; "AtomicNumber"]
           [Sample.nonmetals; Sample.gases] "AtomicNumber" "8" w w' 1%nat).
  reflexivity.
Defined.

(** ** generate_html *)

Lemma html_rows_table (els : list (gmap string string)) (acc : string) (w : world) :
  Forall has_table_fields els ->
  html_rows acc els w = (Ok (acc +:+ join (html_row_of <$> els)), w).
Proof.
  intros Hall. revert acc.
  induction Hall as [|e els ([symbol Hs] & [name Hn] & [number Ha]) _ IH]; intros acc.
  - cbn [fmap list_fmap join foldr]. by rewrite append_empty_r.
  - cbn [html_rows]. run. rewrite (run_getitem_Some _ _ _ _ Hs). run.
    rewrite (run_getitem_Some _ _ _ _ Hn). run.
    rewrite (run_getitem_Some _ _ _ _ Ha). run. rewrite IH.
    cbn [fmap list_fmap join foldr]. rewrite append_assoc.
    unfold html_row_of, field_text. by rewrite Hs, Hn, Ha.
Qed.

Lemma html_rows_missing (els : list (gmap string string)) (acc : string) (w : world) :
  Exists (fun e => ¬ has_table_fields e) els ->
  ∃ key, key ∈ ["Symbol"; "Element"; "AtomicNumber"]
         ∧ html_rows acc els w = (Raise (KeyError key), w).
Proof.
  intros Hex. revert acc. induction els as [|e els IH]; intros acc;
    [by apply Exists_nil in Hex|].
  cbn [html_rows]. run. unfold getitem.
  destruct (e !! "Symbol") as [symbol|] eqn:Hs;
    [|exists "Symbol"; split; [set_solver|reflexivity]].
  run. destruct (e !! "Element") as [name|] eqn:Hn;
    [|exists "Element"; split; [set_solver|reflexivity]].
  run. destruct (e !! "AtomicNumber") as [number|] eqn:Ha;
    [|exists "AtomicNumber"; split; [set_solver|reflexivity]].
  run. apply IH. apply Exists_cons in Hex as [He|Hex]; [|exact Hex].
  exfalso. apply He. unfold has_table_fields. rewrite Hs, Hn, Ha. eauto.
Qed.

(** X11.  [generate_html] writes one table row per element, in the order of
    the collection, between the fixed head and foot, with the field texts
    put in as they are; the file replaces whatever the path held, one line
    is printed and the collection is not touched. *)
Theorem generate_html_table (file_path : string) (s : machine) :
  Forall has_table_fields (w_elements (m_world s)) ->
  ∃ s',
    generate_html file_path s = (Ok tt, s')
    ∧ file_at s' file_path =
      Some (inr (Txt.html_head
                 +:+ join (html_row_of <$> w_elements (m_world s))
                 +:+ Txt.html_foot))
    ∧ (∀ path, path ≠ file_path -> file_at s' path = file_at s path)
    ∧ w_elements (m_world s') = w_elements (m_world s)
    ∧ w_stdin (m_world s') = w_stdin (m_world s)
    ∧ w_stdout (m_world s') =
      w_stdout (m_world s) ++ [Txt.html_written file_path +:+ Text.nl].
Proof.
  intros Hall.
  assert (Hrun : generate_html file_path s =
            (Ok tt,
             Machine (World (w_elements (m_world s))
                            (w_stdout (m_world s)
                             ++ [Txt.html_written file_path +:+ Text.nl])
                            (w_stdin (m_world s))
                            (delete file_path (w_files (m_world s))))
                     (<[file_path := (Txt.html_head
                                      +:+ join (html_row_of <$> w_elements (m_world s)))
                                     +:+ Txt.html_foot]> (m_texts s)))).
  { unfold generate_html, get_elements. runT.
    rewrite (html_rows_table _ _ _ Hall). runT. unfold write_text. runT.
    reflexivity. }
  eexists. split; [exact Hrun|].
  unfold file_at. cbn [m_world m_texts w_files w_elements w_stdin w_stdout].
  split; [|split; [|done]].
  - rewrite lookup_delete_eq, lookup_insert_eq. cbn. by rewrite append_assoc.
  - intros path Hne. by rewrite lookup_delete_ne, lookup_insert_ne.
Qed.

Lemma generate_html_table_witness :
  ∃ s',
    generate_html "t.html"
      (Machine (World [Sample.H; Sample.O] [] [] {[ "t.html" := JsonDump [] false 4 ]}) ∅)
      = (Ok tt, s')
    ∧ file_at s' "t.html" =
      Some (inr (Txt.html_head
                 +:+ join (html_row_of <$> [Sample.H; Sample.O])
                 +:+ Txt.html_foot))
    ∧ (∀ path, path ≠ "t.html" ->
         file_at s' path =
         file_at (Machine (World [Sample.H; Sample.O] [] []
                             {[ "t.html" := JsonDump [] false 4 ]}) ∅) path)
    ∧ w_elements (m_world s') = [Sample.H; Sample.O]
    ∧ w_stdin (m_world s') = []
    ∧ w_stdout (m_world s') = [] ++ [Txt.html_written "t.html" +:+ Text.nl].
Proof.
  apply (generate_html_table "t.html"
           (Machine (World [Sample.H; Sample.O] [] []
                       {[ "t.html" := JsonDump [] false 4 ]}) ∅)).
  repeat constructor; eexists; vm_compute; reflexivity.
Defined.

(** X12.  When an element lacks [Symbol], [Element] or [AtomicNumber],
    [generate_html] ends in the [KeyError] of a missing one before the file
    is opened: no file is written or replaced and nothing is printed. *)
Theorem generate_html_missing_field (file_path : string) (s : machine) :
  Exists (fun e => ¬ has_table_fields e) (w_elements (m_world s)) ->
  ∃ key, key ∈ ["Symbol"; "Element"; "AtomicNumber"]
         ∧ generate_html file_path s = (Raise (KeyError key), s).
Proof.
  intros Hex.
  destruct (html_rows_missing _ Txt.html_head (m_world s) Hex) as (key & Hkey & Hrun).
  exists key. split; [exact Hkey|].
  unfold generate_html, get_elements. runT. cbn [m_world m_texts]. rewrite Hrun.
  runT. by destruct s.
Qed.

Lemma generate_html_missing_field_witness :
  ∃ key, key ∈ ["Symbol"; "Element"; "AtomicNumber"]
         ∧ generate_html "t.html"
             (Machine (Sample.world_of [Sample.H; Sample.bare]) ∅) =
           (Raise (KeyError key),
            Machine (Sample.world_of [Sample.H; Sample.bare]) ∅).
Proof.
  apply (generate_html_missing_field "t.html"
           (Machine (Sample.world_of [Sample.H; Sample.bare]) ∅)).
  right. left. intros (_ & [name Hname] & _). vm_compute in Hname. discriminate Hname.
Defined.

(** ** generate_markdown *)

Lemma markdown_sections_text (els : list (gmap string string)) (acc : string)
    (w : world) :
  Forall has_report_fields els ->
  markdown_sections acc els w =
  (Ok (acc +:+ join (markdown_section_of <$> els)), w).
Proof.
  intros Hall. revert acc.
  induction Hall as [|e els (([symbol Hs] & [name Hn] & [number Ha]) & [mass Hm]) _ IH];
    intros acc.
  - cbn [fmap list_fmap join foldr]. by rewrite append_empty_r.
  - cbn [markdown_sections]. run. rewrite (run_getitem_Some _ _ _ _ Hs). run.
    rewrite (run_getitem_Some _ _ _ _ Hn). run.
    rewrite (run_getitem_Some _ _ _ _ Ha). run.
    rewrite (run_getitem_Some _ _ _ _ Hm). run. rewrite IH.
    cbn [fmap list_fmap join foldr]. rewrite !append_assoc.
    unfold markdown_section_of, field_text. rewrite Hs, Hn, Ha, Hm. cbn [default].
    by rewrite !append_assoc.
Qed.

Lemma markdown_sections_missing (els : list (gmap string string)) (acc : string)
    (w : world) :
  Exists (fun e => ¬ has_report_fields e) els ->
  ∃ key, key ∈ ["Symbol"; "Element"; "AtomicNumber"; "AtomicMass"]
         ∧ markdown_sections acc els w = (Raise (KeyError key), w).
Proof.
  intros Hex. revert acc. induction els as [|e els IH]; intros acc;
    [by apply Exists_nil in Hex|].
  cbn [markdown_sections]. run. unfold getitem.
  destruct (e !! "Symbol") as [symbol|] eqn:Hs;
    [|exists "Symbol"; split; [set_solver|reflexivity]].
  run. destruct (e !! "Element") as [name|] eqn:Hn;
    [|exists "Element"; split; [set_solver|reflexivity]].
  run. destruct (e !! "AtomicNumber") as [number|] eqn:Ha;
    [|exists "AtomicNumber"; split; [set_solver|reflexivity]].
  run. destruct (e !! "AtomicMass") as [mass|] eqn:Hm;
    [|exists "AtomicMass"; split; [set_solver|reflexivity]].
  run. apply IH. apply Exists_cons in Hex as [He|Hex]; [|exact Hex].
  exfalso. apply He. unfold has_report_fields, has_table_fields.
  rewrite Hs, Hn, Ha, Hm. eauto 6.
Qed.

(** X13.  [generate_markdown] writes the heading and then one section per
    element of the list it is given, in the order of the list; for the
    empty list the file holds the heading alone.  The file replaces what
    the path held and one line is printed. *)
Theorem generate_markdown_sections (elements : list (gmap string string))
    (file_path : string) (s : machine) :
  Forall has_report_fields elements ->
  ∃ s',
    generate_markdown elements file_path s = (Ok tt, s')
    ∧ file_at s' file_path =
      Some (inr (Txt.markdown_head +:+ join (markdown_section_of <$> elements)))
    ∧ (elements = [] -> file_at s' file_path = Some (inr Txt.markdown_head))
    ∧ (∀ path, path ≠ file_path -> file_at s' path = file_at s path)
    ∧ w_elements (m_world s') = w_elements (m_world s)
    ∧ w_stdin (m_world s') = w_stdin (m_world s)
    ∧ w_stdout (m_world s') =
      w_stdout (m_world s) ++ [Txt.markdown_written file_path +:+ Text.nl].
Proof.
  intros Hall.
  assert (Hrun : generate_markdown elements file_path s =
            (Ok tt,
             Machine (World (w_elements (m_world s))
                            (w_stdout (m_world s)
                             ++ [Txt.markdown_written file_path +:+ Text.nl])
                            (w_stdin (m_world s))
                            (delete file_path (w_files (m_world s))))
                     (<[file_path := Txt.markdown_head
                                     +:+ join (markdown_section_of <$> elements)]>
                        (m_texts s)))).
  { unfold generate_markdown. runT.
    rewrite (markdown_sections_text _ _ _ Hall). runT. unfold write_text.
    runT. reflexivity. }
  eexists. split; [exact Hrun|].
  unfold file_at. cbn [m_world m_texts w_files w_elements w_stdin w_stdout].
  split; [|split; [|split; [|done]]].
  - by rewrite lookup_delete_eq, lookup_insert_eq.
  - intros ->. by rewrite lookup_delete_eq, lookup_insert_eq.
  - intros path Hne. by rewrite lookup_delete_ne, lookup_insert_ne.
Qed.

Lemma generate_markdown_sections_witness :
  ∃ s',
    generate_markdown [Sample.He; Sample.H] "g.md"
      (Machine (Sample.world_of [Sample.H; Sample.bare; Sample.He]) ∅) = (Ok tt, s')
    ∧ file_at s' "g.md" =
      Some (inr (Txt.markdown_head
                 +:+ join (markdown_section_of <$> [Sample.He; Sample.H])))
    ∧ ([Sample.He; Sample.H] = [] -> file_at s' "g.md" = Some (inr Txt.markdown_head))
    ∧ (∀ path, path ≠ "g.md" ->
         file_at s' path =
         file_at (Machine (Sample.world_of [Sample.H; Sample.bare; Sample.He]) ∅) path)
    ∧ w_elements (m_world s') = [Sample.H; Sample.bare; Sample.He]
    ∧ w_stdin (m_world s') = []
    ∧ w_stdout (m_world s') = [] ++ [Txt.markdown_written "g.md" +:+ Text.nl].
Proof.
  apply (generate_markdown_sections [Sample.He; Sample.H] "g.md"
           (Machine (Sample.world_of [Sample.H; Sample.bare; Sample.He]) ∅)).
  repeat constructor; eexists; vm_compute; reflexivity.
Defined.

(** X14.  When an element of the list lacks [Symbol], [Element],
    [AtomicNumber] or [AtomicMass], [generate_markdown] ends in the
    [KeyError] of a missing one before the file is opened: no file is
    written or replaced and nothing is printed. *)
Theorem generate_markdown_missing_field (elements : list (gmap string string))
    (file_path : string) (s : machine) :
  Exists (fun e => ¬ has_report_fields e) elements ->
  ∃ key, key ∈ ["Symbol"; "Element"; "AtomicNumber"; "AtomicMass"]
         ∧ generate_markdown elements file_path s = (Raise (KeyError key), s).
Proof.
  intros Hex.
  destruct (markdown_sections_missing _ Txt.markdown_head (m_world s) Hex)
    as (key & Hkey & Hrun).
  exists key. split; [exact Hkey|].
  unfold generate_markdown. runT. cbn [m_world m_texts]. rewrite Hrun.
  runT. by destruct s.
Qed.

Lemma generate_markdown_missing_field_witness :
  ∃ key, key ∈ ["Symbol"; "Element"; "AtomicNumber"; "AtomicMass"]
         ∧ generate_markdown [Sample.H; delete "AtomicMass" Sample.He] "g.md"
             (Machine (Sample.world_of []) ∅) =
           (Raise (KeyError key), Machine (Sample.world_of []) ∅).
Proof.
  apply (generate_markdown_missing_field [Sample.H; delete "AtomicMass" Sample.He]
           "g.md" (Machine (Sample.world_of []) ∅)).
  right. left. intros (_ & [mass Hmass]). vm_compute in Hmass. discriminate Hmass.
Defined.

(** * Properties of the menu *)

(** ** The input is only ever read *)

Lemma pure_M_calm {A : Type} (m : M A) : pure_M m -> calm_M m.
Proof. intros Hp w. by rewrite Hp. Qed.

Lemma pure_M_ret {A : Type} (a : A) : pure_M (mret a : M A).
Proof. by intros w. Qed.

Lemma pure_M_raise {A : Type} (e : exn) : pure_M (raise e : M A).
Proof. by intros w. Qed.

Lemma pure_M_bind {A B : Type} (m : M A) (f : A -> M B) :
  pure_M m -> (∀ a, pure_M (f a)) -> pure_M (m ≫= f).
Proof.
  intros Hm Hf w. rewrite run_bind. specialize (Hm w).
  destruct (m w) as [[a|e] w']; cbn in Hm; subst w'; [apply Hf|reflexivity].
Qed.

Lemma pure_M_getitem (d : gmap string string) (key : string) :
  pure_M (getitem d key).
Proof. unfold getitem. destruct (d !! key); [apply pure_M_ret|apply pure_M_raise]. Qed.

Lemma pure_M_py_float (text : string) : pure_M (py_float text).
Proof.
  unfold py_float. destruct (Float.float_of_string text);
    [apply pure_M_ret|apply pure_M_raise].
Qed.

Lemma calm_M_bind {A B : Type} (m : M A) (f : A -> M B) :
  calm_M m -> (∀ a, calm_M (f a)) -> calm_M (m ≫= f).
Proof.
  intros Hm Hf w. rewrite run_bind. specialize (Hm w).
  destruct (m w) as [[a|e] w']; cbn in Hm; [|exact Hm].
  etrans; [apply Hf|exact Hm].
Qed.

Lemma calm_M_print (text : string) : calm_M (print text).
Proof. by intros w. Qed.

Lemma calm_M_input (prompt : string) : calm_M (input prompt).
Proof.
  intros w. unfold input.
  destruct (w_stdin w) eqn:Hin; cbn; rewrite ?Hin; cbn; lia.
Qed.

Lemma calm_bind {A B : Type} (m : T A) (f : A -> T B) :
  calm m -> (∀ a, calm (f a)) -> calm (m ≫= f).
Proof.
  intros Hm Hf s. rewrite run_bind_T. specialize (Hm s).
  destruct (m s) as [[a|e] s']; cbn in Hm; [|exact Hm].
  etrans; [apply Hf|exact Hm].
Qed.

Lemma calm_ret {A : Type} (a : A) : calm (mret a : T A).
Proof. by intros s. Qed.

Lemma calm_lift {A : Type} (m : M A) : calm_M m -> calm (lift m).
Proof. intros Hm s. rewrite run_lift. apply Hm. Qed.

Lemma calm_write_text (path content : string) : calm (write_text path content).
Proof. by intros s. Qed.

Lemma pure_M_masses_where (field : string) (wanted : option string)
    (els : list (gmap string string)) : pure_M (masses_where field wanted els).
Proof. intros w. by rewrite (masses_where_world _ _ _ w w). Qed.

Lemma pure_M_select_symbols (requested : list string)
    (els : list (gmap string string)) : pure_M (select_symbols requested els).
Proof.
  induction els as [|e els IH]; [apply pure_M_ret|].
  cbn [select_symbols]. apply pure_M_bind; [apply pure_M_getitem|]. intros symbol.
  case_bool_decide; [|exact IH].
  apply pure_M_bind; [exact IH|]. intros chosen. apply pure_M_ret.
Qed.

Lemma pure_M_elements_where (field value : string)
    (els : list (gmap string string)) : pure_M (elements_where field value els).
Proof.
  induction els as [|e els IH]; [apply pure_M_ret|].
  cbn [elements_where]. apply pure_M_bind; [apply pure_M_getitem|]. intros v.
  case_bool_decide; [|exact IH].
  apply pure_M_bind; [exact IH|]. intros kept. apply pure_M_ret.
Qed.

Lemma pure_M_html_rows (els : list (gmap string string)) (acc : string) :
  pure_M (html_rows acc els).
Proof.
  revert acc. induction els as [|e els IH]; intros acc; [apply pure_M_ret|].
  cbn [html_rows]. repeat (apply pure_M_bind; [apply pure_M_getitem|]; intros ?).
  apply IH.
Qed.

Lemma pure_M_markdown_sections (els : list (gmap string string)) (acc : string) :
  pure_M (markdown_sections acc els).
Proof.
  revert acc. induction els as [|e els IH]; intros acc; [apply pure_M_ret|].
  cbn [markdown_sections].
  repeat (apply pure_M_bind; [apply pure_M_getitem|]; intros ?).
  apply IH.
Qed.

Lemma calm_M_search_element (groups : list group) (criterion value : string) :
  calm_M (search_element groups criterion value).
Proof.
  intros w. rewrite search_element_spec.
  destruct (list_find _ (w_elements w)) as [[i e]|]; [|reflexivity].
  destruct (found groups i e w) as [r w'] eqn:Hf.
  apply found_frame in Hf as [Hs _]. cbn [snd]. by rewrite Hs.
Qed.

Lemma calm_M_display_element (keys : list string) (element : gmap string string) :
  calm_M (display_element keys element).
Proof.
  intros w. unfold display_element. case_bool_decide; [|reflexivity].
  run. rewrite print_items_lines. reflexivity.
Qed.

Lemma calm_M_display_result (fieldnames : list string) (r : elem_ref) :
  calm_M (display_result fieldnames r).
Proof. intros w. unfold display_result. apply calm_M_display_element. Qed.

Lemma calm_M_report_average (xs : list Float.pyfloat) : calm_M (report_average xs).
Proof.
  intros w. unfold report_average. destruct xs as [|x xs]; [reflexivity|].
  destruct (Float.mean (x :: xs)); reflexivity.
Qed.

Lemma calm_M_calculate_average_mass (group period : option string) :
  calm_M (calculate_average_mass group period).
Proof.
  unfold calculate_average_mass.
  destruct (truthy group && truthy period); [by intros w|].
  destruct (truthy group).
  - apply calm_M_bind; [by intros w|]. intros els.
    apply calm_M_bind; [apply pure_M_calm, pure_M_masses_where|].
    intros xs. apply calm_M_report_average.
  - destruct (truthy period); [|by intros w].
    apply calm_M_bind; [by intros w|]. intros els.
    apply calm_M_bind; [apply pure_M_calm, pure_M_masses_where|].
    intros xs. apply calm_M_report_average.
Qed.

Lemma read_symbols_rest (pending acc : list string) (n : nat) :
  (length (read_symbols acc n pending).2 <= length pending)%nat.
Proof.
  revert acc n. induction pending as [|line pending IH]; intros acc n; [reflexivity|].
  cbn [read_symbols]. destruct (String.eqb (Text.strip line) ""); cbn; [lia|].
  specialize (IH (acc ++ [Text.strip line]) (S n)). lia.
Qed.

Lemma calm_M_collect_symbols (acc : list string) : calm_M (collect_symbols acc).
Proof.
  intros w. unfold collect_symbols.
  pose proof (read_symbols_rest (w_stdin w) acc 0) as Hrest.
  by destruct (read_symbols acc 0 (w_stdin w)) as [[r prompts] rest].
Qed.

Lemma calm_M_export_to_json (file_path : string) : calm_M (export_to_json file_path).
Proof.
  unfold export_to_json.
  apply calm_M_bind; [apply calm_M_print|]. intros _.
  apply calm_M_bind; [apply calm_M_collect_symbols|]. intros requested.
  apply calm_M_bind; [by intros w|]. intros els.
  apply calm_M_bind; [apply pure_M_calm, pure_M_select_symbols|]. intros chosen.
  apply calm_M_bind; [by intros w|]. intros _. apply calm_M_print.
Qed.

Lemma calm_generate_html (file_path : string) : calm (generate_html file_path).
Proof.
  unfold generate_html.
  apply calm_bind; [apply calm_lift; by intros w|]. intros els.
  apply calm_bind; [apply calm_lift, pure_M_calm, pure_M_html_rows|]. intros text.
  apply calm_bind; [apply calm_write_text|]. intros _.
  apply calm_lift, calm_M_print.
Qed.

Lemma calm_generate_markdown (els : list (gmap string string)) (file_path : string) :
  calm (generate_markdown els file_path).
Proof.
  unfold generate_markdown.
  apply calm_bind; [apply calm_lift, pure_M_calm, pure_M_markdown_sections|].
  intros text. apply calm_bind; [apply calm_write_text|]. intros _.
  apply calm_lift, calm_M_print.
Qed.

Lemma calm_next_turn : calm next_turn.
Proof.
  unfold next_turn. apply calm_bind; [apply calm_lift, calm_M_input|].
  intros _. apply calm_ret.
Qed.

Create HintDb calm.

#[local] Hint Resolve calm_lift calm_ret calm_next_turn calm_M_input calm_M_print
  calm_M_search_element calm_M_display_result calm_M_calculate_average_mass
  calm_M_export_to_json calm_generate_html calm_generate_markdown
  calm_write_text : calm.

Ltac calm_steps :=
  repeat first
    [ solve [auto with calm]
    | apply calm_lift, pure_M_calm, pure_M_elements_where
    | apply calm_lift; intros ?; reflexivity
    | apply calm_bind; [|intros ?] ].

Lemma calm_main_choice (fieldnames : list string) (groups : list group)
    (choice : string) : calm (main_choice fieldnames groups choice).
Proof.
  unfold main_choice.
  repeat (destruct (String.eqb choice _)); try calm_steps.
  destruct (truthy _ && truthy _); [calm_steps|].
  destruct (truthy _); [calm_steps|].
  destruct (truthy _); calm_steps.
Qed.

Lemma input_reads (prompt : string) (w w' : world) (line : string) :
  input prompt w = (Ok line, w') ->
  w_stdin w = line :: w_stdin w'
  ∧ w_elements w' = w_elements w
  ∧ w_files w' = w_files w
  ∧ w_stdout w' = w_stdout w ++ [prompt].
Proof.
  unfold input. destruct (w_stdin w) as [|l rest]; [discriminate|].
  by intros [= <- <-].
Qed.

Lemma display_menu_reads (w w' : world) (choice : string) :
  display_menu w = (Ok choice, w') ->
  w_stdin w = choice :: w_stdin w'
  ∧ w_elements w' = w_elements w
  ∧ w_files w' = w_files w
  ∧ w_stdout w' = w_stdout w ++ [Txt.menu +:+ Text.nl; Txt.choose].
Proof.
  unfold display_menu. run. intros Hin.
  apply input_reads in Hin as (Hs & He & Hf & Ho). cbn in *.
  rewrite Hs, He, Hf, Ho, <- app_assoc. done.
Qed.

(** Every turn that does not end in an exception has read a line. *)
Lemma main_turn_reads (fieldnames : list string) (groups : list group)
    (s s' : machine) (go_on : bool) :
  main_turn fieldnames groups s = (Ok go_on, s') ->
  (length (w_stdin (m_world s')) < length (w_stdin (m_world s)))%nat.
Proof.
  unfold main_turn. rewrite run_bind_T, run_lift.
  destruct (display_menu (m_world s)) as [[choice|e] w1] eqn:Hmenu; [|discriminate].
  apply display_menu_reads in Hmenu as (Hin & _). cbn [fst snd]. intros Hrun.
  pose proof (calm_main_choice fieldnames groups choice (Machine w1 (m_texts s)))
    as Hcalm.
  rewrite Hrun in Hcalm. cbn in Hcalm. rewrite Hin. cbn. lia.
Qed.

(** ** The loop ends *)

Lemma main_loop_within (turns : nat) (fieldnames : list string)
    (groups : list group) (s : machine) :
  (length (w_stdin (m_world s)) < turns)%nat ->
  is_Some (main_loop turns fieldnames groups s).
Proof.
  revert s. induction turns as [|turns IH]; intros s Hlen; [lia|].
  cbn [main_loop].
  destruct (main_turn fieldnames groups s) as [[[|]|e] s'] eqn:Hturn; [|eauto..].
  apply IH. apply main_turn_reads in Hturn. lia.
Qed.

Lemma main_loop_more (turns turns' : nat) (fieldnames : list string)
    (groups : list group) (s : machine) (result : outcome unit * machine) :
  main_loop turns fieldnames groups s = Some result ->
  (turns <= turns')%nat ->
  main_loop turns' fieldnames groups s = Some result.
Proof.
  revert turns' s. induction turns as [|turns IH]; intros turns' s Hrun Hle;
    [discriminate|].
  destruct turns' as [|turns']; [lia|]. cbn [main_loop] in *.
  destruct (main_turn fieldnames groups s) as [[[|]|e] s']; [|exact Hrun..].
  apply IH; [exact Hrun|lia].
Qed.

(** X15.  The loop of [main] always ends: every turn reads at least the
    line of the choice and no function adds to the input, so the loop makes
    at most as many turns as there are lines of input.  It ends with the
    same result whatever bound above that count is put on the turns, and
    [main], which allows one turn more than there are lines, always has a
    result. *)
Theorem main_loop_ends (fieldnames : list string) (groups : list group)
    (s : machine) :
  (∃ result,
      ∀ turns,
        (length (w_stdin (m_world s)) < turns)%nat ->
        main_loop turns fieldnames groups s = Some result)
  ∧ ∀ csvfile jsonfile, is_Some (main csvfile jsonfile s).
Proof.
  split.
  - destruct (main_loop_within (S (length (w_stdin (m_world s)))) fieldnames groups s)
      as [result Hrun]; [lia|].
    exists result. intros turns Hlen. eapply main_loop_more; [exact Hrun|lia].
  - intros csvfile jsonfile. unfold main.
    match goal with |- is_Some (match ?x with _ => _ end) =>
      destruct x as [[groups'|e] s'] end; [|eauto].
    apply main_loop_within. lia.
Qed.

Lemma main_loop_ends_witness :
  ∃ result,
    main_loop 3 ["Symbol"] [Sample.nonmetals]
      (Machine (World [Sample.H] [] ["9"; ""] ∅) ∅) = Some result.
Proof.
  destruct (proj1 (main_loop_ends ["Symbol"] [Sample.nonmetals]
                     (Machine (World [Sample.H] [] ["9"; ""] ∅) ∅)))
    as [result Hrun].
  exists result. apply Hrun. cbn. lia.
Defined.

(** ** Well-formed data keeps the session going *)

Lemma safe_M_bind {A B : Type} (m : M A) (f : A -> M B) (Q : A -> Prop)
    (R : B -> Prop) :
  safe_M m Q -> (∀ a, Q a -> safe_M (f a) R) -> safe_M (m ≫= f) R.
Proof.
  intros Hm Hf w Hw. rewrite run_bind. destruct (Hm w Hw) as [Hgood Hres].
  destruct (m w) as [[a|e] w']; cbn in *; [|done].
  by apply Hf.
Qed.

Lemma safe_bind {A B : Type} (m : T A) (f : A -> T B) (Q : A -> Prop)
    (R : B -> Prop) :
  safe m Q -> (∀ a, Q a -> safe (f a) R) -> safe (m ≫= f) R.
Proof.
  intros Hm Hf s Hs. rewrite run_bind_T. destruct (Hm s Hs) as [Hgood Hres].
  destruct (m s) as [[a|e] s']; cbn in *; [|done].
  by apply Hf.
Qed.

Lemma safe_lift {A : Type} (m : M A) (Q : A -> Prop) : safe_M m Q -> safe (lift m) Q.
Proof. intros Hm s Hs. rewrite run_lift. apply Hm, Hs. Qed.

Lemma safe_ret {A : Type} (a : A) (Q : A -> Prop) : Q a -> safe (mret a : T A) Q.
Proof. by intros Ha s Hs. Qed.

Lemma safe_M_weaken {A : Type} (m : M A) (Q : A -> Prop) :
  safe_M m Q -> safe_M m (fun _ => True).
Proof.
  intros Hm w Hw. destruct (Hm w Hw) as [Hgood Hres]. split; [exact Hgood|].
  by destruct (m w).1.
Qed.

Lemma safe_M_print (text : string) : safe_M (print text) (fun _ => True).
Proof. by intros w Hw. Qed.

Lemma safe_M_input (prompt : string) : safe_M (input prompt) (fun _ => True).
Proof. intros w Hw. unfold input. by destruct (w_stdin w). Qed.

Lemma safe_M_get_elements : safe_M get_elements (Forall well_formed).
Proof. by intros w Hw. Qed.

Lemma safe_write_text (path content : string) :
  safe (write_text path content) (fun _ => True).
Proof. by intros s Hs. Qed.

Lemma well_formed_group (e : gmap string string) (label : string) :
  well_formed e -> well_formed (<["Group" := label]> e).
Proof.
  unfold well_formed, has_report_fields, has_table_fields, mass_of.
  rewrite lookup_insert_eq. rewrite !lookup_insert_ne by done.
  intros (? & _ & ? & ?). eauto.
Qed.

Lemma safe_M_search_element (groups : list group) (criterion value : string) :
  safe_M (search_element groups criterion value) (fun _ => True).
Proof.
  intros w Hw. rewrite search_element_spec.
  destruct (list_find _ (w_elements w)) as [[i e]|] eqn:Hfind; [|done].
  apply list_find_first_match in Hfind as (Hi & _ & _).
  assert (He : well_formed e) by (by eapply Forall_lookup_1 in Hw).
  unfold found. destruct (truthy (e !! "Group")); [done|].
  destruct He as ((([symbol Hs] & _ & _) & _) & _ & _ & _).
  rewrite Hs. cbn. split; [|done].
  apply Forall_alter; [exact Hw|]. intros x _. apply well_formed_group.
Qed.

Lemma safe_M_display_result (fieldnames : list string) (r : elem_ref) :
  safe_M (display_result fieldnames r) (fun _ => True).
Proof.
  intros w Hw. unfold display_result, display_element.
  case_bool_decide; [|done]. run. rewrite print_items_lines. done.
Qed.

Lemma chosen_masses (field : string) (wanted : option string)
    (els : list (gmap string string)) :
  Forall well_formed els -> is_Some (mapM mass_of (chosen field wanted els)).
Proof.
  intros Hall. apply mapM_is_Some_2, Forall_forall. intros e He.
  apply list_elem_of_filter in He as [_ He].
  eapply Forall_forall in Hall; [|exact He]. by destruct Hall as (_ & _ & _ & ?).
Qed.

Lemma safe_M_filter_report (field : string) (wanted : option string) :
  (field = "Group" ∨ field = "Period") ->
  safe_M (elements ← get_elements;
          filtered_elements ← masses_where field wanted elements;
          report_average filtered_elements) (fun _ => True).
Proof.
  intros Hfield w Hw. unfold get_elements. run.
  destruct (chosen_masses field wanted _ Hw) as [xs Hxs].
  rewrite (masses_where_ok _ _ _ xs); [| |exact Hxs].
  - unfold report_average. destruct xs as [|x xs]; [done|].
    destruct (mean_nonempty (x :: xs)) as [avg ->]; done.
  - eapply Forall_impl; [exact Hw|]. intros e (_ & Hg & Hp & _).
    by destruct Hfield as [->| ->].
Qed.

Lemma safe_M_calculate_average_mass (group period : option string) :
  safe_M (calculate_average_mass group period) (fun _ => True).
Proof.
  unfold calculate_average_mass.
  destruct (truthy group && truthy period); [by intros w Hw|].
  destruct (truthy group); [apply safe_M_filter_report; by left|].
  destruct (truthy period); [apply safe_M_filter_report; by right|].
  by intros w Hw.
Qed.

Lemma read_symbols_outcome (pending acc : list string) (n : nat) :
  match (read_symbols acc n pending).1.1 with
  | Ok _ => True
  | Raise e => e = EOFError
  end.
Proof.
  revert acc n. induction pending as [|line pending IH]; intros acc n; [done|].
  cbn [read_symbols]. destruct (String.eqb (Text.strip line) ""); [done|]. apply IH.
Qed.

Lemma safe_M_collect_symbols (acc : list string) :
  safe_M (collect_symbols acc) (fun _ => True).
Proof.
  intros w Hw. unfold collect_symbols.
  pose proof (read_symbols_outcome (w_stdin w) acc 0) as Hout.
  destruct (read_symbols acc 0 (w_stdin w)) as [[r prompts] rest]. cbn in *.
  split; [exact Hw|]. by destruct r.
Qed.

Lemma well_formed_symbol (els : list (gmap string string)) :
  Forall well_formed els ->
  Forall (fun e : gmap string string => is_Some (e !! "Symbol")) els.
Proof.
  intros Hall. eapply Forall_impl; [exact Hall|].
  by intros e (((? & _ & _) & _) & _).
Qed.

Lemma well_formed_table (els : list (gmap string string)) :
  Forall well_formed els -> Forall has_table_fields els.
Proof. intros Hall. eapply Forall_impl; [exact Hall|]. by intros e ((? & _) & _). Qed.

Lemma well_formed_report (els : list (gmap string string)) :
  Forall well_formed els -> Forall has_report_fields els.
Proof. intros Hall. eapply Forall_impl; [exact Hall|]. by intros e (? & _). Qed.

Lemma safe_M_export_to_json (file_path : string) :
  safe_M (export_to_json file_path) (fun _ => True).
Proof.
  unfold export_to_json.
  eapply safe_M_bind; [apply safe_M_print|]. intros _ _.
  eapply safe_M_bind; [apply safe_M_collect_symbols|]. intros requested _.
  eapply safe_M_bind; [apply safe_M_get_elements|]. intros els Hels.
  intros w Hw. run. rewrite (select_symbols_selected _ _ _ (well_formed_symbol _ Hels)).
  done.
Qed.

Lemma elements_where_kept (field value : string)
    (els : list (gmap string string)) (w : world) :
  Forall (fun e : gmap string string => is_Some (e !! field)) els ->
  elements_where field value els w =
  (Ok (filter (fun e : gmap string string => e !! field = Some value) els), w).
Proof.
  induction 1 as [|e els [v Hv] _ IH]; [reflexivity|].
  cbn [elements_where]. run. rewrite (run_getitem_Some _ _ _ _ Hv).
  rewrite filter_cons, Hv. case_bool_decide as Hd.
  - subst v. rewrite decide_True by done. run. by rewrite IH.
  - rewrite decide_False by congruence. exact IH.
Qed.

Lemma safe_M_elements_where (value : string) (els : list (gmap string string)) :
  Forall well_formed els ->
  safe_M (elements_where "Group" value els) (Forall well_formed).
Proof.
  intros Hels w Hw. rewrite elements_where_kept.
  - split; [exact Hw|]. cbn. apply Forall_forall. intros e He.
    apply list_elem_of_filter in He as [_ He]. by eapply Forall_forall in Hels.
  - eapply Forall_impl; [exact Hels|]. by intros e (_ & ? & _).
Qed.

Lemma safe_generate_html (file_path : string) :
  safe (generate_html file_path) (fun _ => True).
Proof.
  unfold generate_html.
  eapply safe_bind; [apply safe_lift, safe_M_get_elements|]. intros els Hels.
  intros s Hs. runT. rewrite (html_rows_table _ _ _ (well_formed_table _ Hels)).
  runT. done.
Qed.

Lemma safe_generate_markdown (els : list (gmap string string)) (file_path : string) :
  Forall well_formed els ->
  safe (generate_markdown els file_path) (fun _ => True).
Proof.
  intros Hels s Hs. unfold generate_markdown. runT.
  rewrite (markdown_sections_text _ _ _ (well_formed_report _ Hels)). runT. done.
Qed.

Lemma safe_next_turn : safe next_turn (fun _ => True).
Proof.
  unfold next_turn. eapply safe_bind; [apply safe_lift, safe_M_input|].
  intros _ _. by apply safe_ret.
Qed.

Create HintDb safe.

#[local] Hint Resolve safe_lift safe_next_turn safe_M_input safe_M_print
  safe_M_search_element safe_M_display_result safe_M_calculate_average_mass
  safe_M_export_to_json safe_generate_html safe_write_text : safe.

Ltac safe_steps :=
  repeat first
    [ solve [auto with safe]
    | solve [apply safe_ret; exact I]
    | eapply safe_bind; [solve [auto with safe]|intros ? _] ].

Lemma safe_main_choice (fieldnames : list string) (groups : list group)
    (choice : string) :
  safe (main_choice fieldnames groups choice) (fun _ => True).
Proof.
  unfold main_choice.
  repeat (destruct (String.eqb choice _)); try safe_steps.
  - eapply safe_bind; [|intros ? _; apply safe_next_turn].
    destruct (truthy _ && truthy _); [safe_steps|].
    destruct (truthy _); [safe_steps|].
    destruct (truthy _); safe_steps.
  - eapply safe_bind; [apply safe_lift, safe_M_get_elements|]. intros els Hels.
    eapply safe_bind; [apply safe_lift, safe_M_elements_where, Hels|].
    intros kept Hkept.
    eapply safe_bind; [apply safe_generate_markdown, Hkept|]. intros _ _.
    apply safe_next_turn.
Qed.

Lemma safe_main_turn (fieldnames : list string) (groups : list group) :
  safe (main_turn fieldnames groups) (fun _ => True).
Proof.
  unfold main_turn. eapply safe_bind; [|intros choice _; apply safe_main_choice].
  apply safe_lift. unfold display_menu.
  eapply safe_M_bind; [apply safe_M_print|]. intros _ _. apply safe_M_input.
Qed.

Lemma main_loop_safe (turns : nat) (fieldnames : list string)
    (groups : list group) (s : machine) :
  good (m_world s) ->
  (length (w_stdin (m_world s)) < turns)%nat ->
  ∃ r s',
    main_loop turns fieldnames groups s = Some (r, s')
    ∧ (r = Ok tt ∨ r = Raise EOFError)
    ∧ good (m_world s').
Proof.
  revert s. induction turns as [|turns IH]; intros s Hs Hlen; [lia|].
  cbn [main_loop]. destruct (safe_main_turn fieldnames groups s Hs) as [Hgood Hres].
  destruct (main_turn fieldnames groups s) as [[[|]|e] s'] eqn:Hturn; cbn in *.
  - apply IH; [exact Hgood|]. apply main_turn_reads in Hturn. lia.
  - eauto 6.
  - subst e. eauto 6.
Qed.

(** X16.  With well-formed data the session cannot fail.  The CSV file is
    one whose records, the blank ones apart, have as many cells as there are
    field names, so that every row is a dict of text under text keys.  When
    every such row has [Symbol], [Element], [AtomicNumber], [AtomicMass],
    [Group] and [Period] and its [AtomicMass] is a number, or when the CSV
    file is missing, [main] ends either by the choice 0 or with [EOFError]
    at the end of the input, whatever is typed and whatever groups the
    group file holds; no [KeyError] and no [ValueError] is raised, and the
    elements are well formed at the end as well. *)
Theorem main_well_formed (csvfile : option csv_file)
    (jsonfile : option (list group)) (s : machine) :
  Forall well_formed (default [] (csv_rows <$> csvfile)) ->
  ∃ r s',
    main csvfile jsonfile s = Some (r, s')
    ∧ (r = Ok tt ∨ r = Raise EOFError)
    ∧ good (m_world s').
Proof.
  intros Hrows. unfold main, load_elements, load_groups, put_elements.
  destruct csvfile as [file|], jsonfile as [groups|]; runT;
    apply main_loop_safe; cbn; try exact Hrows; try constructor; lia.
Qed.

Lemma main_well_formed_witness :
  ∃ r s',
    main (Some Sample.table) None
      (Machine (World [] [] ["3"; "1"; ""; ""; "2"; "He"; ""; "7"] ∅) ∅)
      = Some (r, s')
    ∧ (r = Ok tt ∨ r = Raise EOFError)
    ∧ good (m_world s').
Proof.
  apply (main_well_formed (Some Sample.table) None
           (Machine (World [] [] ["3"; "1"; ""; ""; "2"; "He"; ""; "7"] ∅) ∅)).
  replace (default [] (csv_rows <$> Some Sample.table))
    with [Sample.H; Sample.He] by (vm_compute; reflexivity).
  repeat constructor; eexists; vm_compute; reflexivity.
Defined.

(** ** The keys of the elements during a session

    Only [search_element] changes an element, and the one key it sets is
    [Group]: the rows of the CSV file keep the field names for their keys,
    so [keys_in_order] is the order in which their dicts yield them. *)

Lemma pure_M_still {A : Type} (m : M A) : pure_M m -> still_M m.
Proof. intros Hm w. by rewrite Hm. Qed.

Lemma still_M_bind {A B : Type} (m : M A) (f : A -> M B) :
  still_M m -> (∀ a, still_M (f a)) -> still_M (m ≫= f).
Proof.
  intros Hm Hf w. rewrite run_bind. specialize (Hm w).
  destruct (m w) as [[a|e] w']; cbn in Hm; [|exact Hm].
  etrans; [apply Hf|exact Hm].
Qed.

Lemma still_M_print (text : string) : still_M (print text).
Proof. by intros w. Qed.

Lemma still_M_input (prompt : string) : still_M (input prompt).
Proof. intros w. unfold input. by destruct (w_stdin w). Qed.

Lemma still_bind {A B : Type} (m : T A) (f : A -> T B) :
  still m -> (∀ a, still (f a)) -> still (m ≫= f).
Proof.
  intros Hm Hf s. rewrite run_bind_T. specialize (Hm s).
  destruct (m s) as [[a|e] s']; cbn in Hm; [|exact Hm].
  etrans; [apply Hf|exact Hm].
Qed.

Lemma still_ret {A : Type} (a : A) : still (mret a : T A).
Proof. by intros s. Qed.

Lemma still_lift {A : Type} (m : M A) : still_M m -> still (lift m).
Proof. intros Hm s. rewrite run_lift. apply Hm. Qed.

Lemma still_write_text (path content : string) : still (write_text path content).
Proof. by intros s. Qed.

Lemma still_M_display_result (fieldnames : list string) (r : elem_ref) :
  still_M (display_result fieldnames r).
Proof.
  intros w. unfold display_result, display_element.
  case_bool_decide; [|reflexivity]. run. rewrite print_items_lines. reflexivity.
Qed.

Lemma still_M_report_average (xs : list Float.pyfloat) : still_M (report_average xs).
Proof.
  intros w. unfold report_average. destruct xs as [|x xs]; [reflexivity|].
  destruct (Float.mean (x :: xs)); reflexivity.
Qed.

Lemma still_M_calculate_average_mass (group period : option string) :
  still_M (calculate_average_mass group period).
Proof.
  unfold calculate_average_mass.
  destruct (truthy group && truthy period); [by intros w|].
  destruct (truthy group).
  - apply still_M_bind; [by intros w|]. intros els.
    apply still_M_bind; [apply pure_M_still, pure_M_masses_where|].
    intros xs. apply still_M_report_average.
  - destruct (truthy period); [|by intros w].
    apply still_M_bind; [by intros w|]. intros els.
    apply still_M_bind; [apply pure_M_still, pure_M_masses_where|].
    intros xs. apply still_M_report_average.
Qed.

Lemma still_M_collect_symbols (acc : list string) : still_M (collect_symbols acc).
Proof.
  intros w. unfold collect_symbols.
  by destruct (read_symbols acc 0 (w_stdin w)) as [[r prompts] rest].
Qed.

Lemma still_M_export_to_json (file_path : string) : still_M (export_to_json file_path).
Proof.
  unfold export_to_json.
  apply still_M_bind; [apply still_M_print|]. intros _.
  apply still_M_bind; [apply still_M_collect_symbols|]. intros requested.
  apply still_M_bind; [by intros w|]. intros els.
  apply still_M_bind; [apply pure_M_still, pure_M_select_symbols|]. intros chosen.
  apply still_M_bind; [by intros w|]. intros _. apply still_M_print.
Qed.

Lemma still_generate_html (file_path : string) : still (generate_html file_path).
Proof.
  unfold generate_html.
  apply still_bind; [apply still_lift; by intros w|]. intros els.
  apply still_bind; [apply still_lift, pure_M_still, pure_M_html_rows|]. intros text.
  apply still_bind; [apply still_write_text|]. intros _.
  apply still_lift, still_M_print.
Qed.

Lemma still_generate_markdown (els : list (gmap string string)) (file_path : string) :
  still (generate_markdown els file_path).
Proof.
  unfold generate_markdown.
  apply still_bind; [apply still_lift, pure_M_still, pure_M_markdown_sections|].
  intros text. apply still_bind; [apply still_write_text|]. intros _.
  apply still_lift, still_M_print.
Qed.

Lemma still_next_turn : still next_turn.
Proof.
  unfold next_turn. apply still_bind; [apply still_lift, still_M_input|].
  intros _. apply still_ret.
Qed.

Lemma still_keeps (fieldnames : list string) {A : Type} (m : T A) :
  still m -> keeps fieldnames m.
Proof. intros Hm s Hs. unfold covered. by rewrite Hm. Qed.

Lemma keeps_bind (fieldnames : list string) {A B : Type} (m : T A) (f : A -> T B) :
  keeps fieldnames m -> (∀ a, keeps fieldnames (f a)) -> keeps fieldnames (m ≫= f).
Proof.
  intros Hm Hf s Hs. rewrite run_bind_T. specialize (Hm s Hs).
  destruct (m s) as [[a|e] s']; cbn in Hm; [|exact Hm].
  by apply Hf.
Qed.

Lemma keeps_search_element (fieldnames : list string) (groups : list group)
    (criterion value : string) :
  keeps fieldnames (lift (search_element groups criterion value)).
Proof.
  intros s Hs. rewrite run_lift, search_element_spec. unfold covered in *.
  destruct (list_find _ (w_elements (m_world s))) as [[i e]|]; [|exact Hs].
  unfold found. destruct (truthy (e !! "Group")); [exact Hs|].
  destruct (e !! "Symbol") as [symbol|]; [|exact Hs]. cbn.
  apply Forall_alter; [exact Hs|]. intros x _ Hx key.
  rewrite lookup_insert_is_Some. intros [<-|[_ Hkey]]; [|by apply Hx].
  apply elem_of_app. right. apply list_elem_of_here.
Qed.

Create HintDb still.

#[local] Hint Resolve still_lift still_ret still_next_turn still_M_input still_M_print
  still_M_display_result still_M_calculate_average_mass
  still_M_export_to_json still_generate_html still_generate_markdown
  still_write_text : still.

Ltac keeps_steps :=
  repeat first
    [ apply keeps_search_element
    | apply still_keeps; solve [auto with still]
    | apply still_keeps, still_lift, pure_M_still, pure_M_elements_where
    | apply still_keeps, still_lift; intros ?; reflexivity
    | apply keeps_bind; [|intros ?] ].

Lemma keeps_main_choice (fieldnames : list string) (groups : list group)
    (choice : string) : keeps fieldnames (main_choice fieldnames groups choice).
Proof.
  unfold main_choice.
  repeat (destruct (String.eqb choice _)); try keeps_steps.
  destruct (truthy _ && truthy _); [keeps_steps|].
  destruct (truthy _); [keeps_steps|].
  destruct (truthy _); keeps_steps.
Qed.

Lemma keeps_main_turn (fieldnames : list string) (groups : list group) :
  keeps fieldnames (main_turn fieldnames groups).
Proof.
  unfold main_turn, display_menu. apply keeps_bind; [|intros choice; apply keeps_main_choice].
  apply still_keeps, still_lift, still_M_bind; [apply still_M_print|].
  intros _. apply still_M_input.
Qed.

Lemma main_loop_covered (turns : nat) (fieldnames : list string)
    (groups : list group) (s s' : machine) (r : outcome unit) :
  covered fieldnames (m_world s) ->
  main_loop turns fieldnames groups s = Some (r, s') ->
  covered fieldnames (m_world s').
Proof.
  revert s. induction turns as [|turns IH]; intros s Hs; [discriminate|].
  cbn [main_loop]. pose proof (keeps_main_turn fieldnames groups s Hs) as Hturn.
  destruct (main_turn fieldnames groups s) as [[[|]|e] s1]; cbn in Hturn.
  - by apply IH.
  - by intros [= <- <-].
  - by intros [= <- <-].
Qed.

Lemma csv_rows_covered (file : csv_file) :
  Forall (fun e : gmap string string =>
            ∀ key, is_Some (e !! key) -> key ∈ csv_fieldnames file ++ ["Group"])
         (csv_rows file).
Proof.
  destruct file as [fieldnames records Hregular]. unfold csv_rows. cbn.
  pose proof (proj1 (forallb_True _ _) Hregular) as Hall.
  rewrite Forall_forall in Hall.
  apply Forall_fmap, Forall_forall. intros record [Hne Hin]%list_elem_of_filter.
  specialize (Hall record Hin). unfold regular_record in Hall.
  apply orb_True in Hall as [Hblank|Hlen].
  - by apply bool_decide_unpack in Hblank.
  - apply Is_true_true, Nat.eqb_eq in Hlen. intros key Hkey.
    apply elem_of_app. left. by apply dict_of_row_keys in Hkey.
Qed.

Lemma main_covered (csvfile : option csv_file) (jsonfile : option (list group))
    (s s' : machine) (r : outcome unit) :
  main csvfile jsonfile s = Some (r, s') ->
  covered (fieldnames_of csvfile) (m_world s').
Proof.
  unfold main, load_elements, load_groups, put_elements.
  destruct csvfile as [file|], jsonfile as [groups|]; runT;
    apply main_loop_covered; unfold covered; cbn;
    try apply csv_rows_covered; constructor.
Qed.

Lemma main_is_Some (csvfile : option csv_file) (jsonfile : option (list group))
    (s : machine) :
  is_Some (main csvfile jsonfile s).
Proof.
  unfold main.
  match goal with |- is_Some (match ?x with _ => _ end) =>
    destruct x as [[groups|e] s'] end; [|eauto].
  apply main_loop_within. lia.
Qed.

(** X20.  [main] gives no element a key of its own.  The rows of the CSV
    file have the field names for their keys, the menu changes an element
    only in [search_element], and the one key that sets is [Group]: a turn
    of the menu keeps the keys of every element among the field names and
    [Group], and so they are when [main] ends.  Hence a dict of the
    collection yields its keys in the order of the field names, [Group] last
    if it was added, which is the order the elements are displayed in. *)
Theorem main_keeps_fieldnames (csvfile : option csv_file)
    (jsonfile : option (list group)) (s : machine) :
  (∀ groups s0,
      covered (fieldnames_of csvfile) (m_world s0) ->
      covered (fieldnames_of csvfile)
        (m_world (main_turn (fieldnames_of csvfile) groups s0).2))
  ∧ ∃ r s',
      main csvfile jsonfile s = Some (r, s')
      ∧ covered (fieldnames_of csvfile) (m_world s')
      ∧ Forall (fun e : gmap string string =>
                  keys_in_order (fieldnames_of csvfile) e =
                  first_occurrences
                    (filter (fun key => is_Some (e !! key))
                       (fieldnames_of csvfile ++ ["Group"])))
               (w_elements (m_world s')).
Proof.
  split; [intros groups s0; apply keeps_main_turn|].
  destruct (main_is_Some csvfile jsonfile s) as [[r s'] Hrun].
  pose proof (main_covered _ _ _ _ _ Hrun) as Hcov.
  exists r, s'. split; [exact Hrun|]. split; [exact Hcov|].
  eapply Forall_impl; [exact Hcov|]. intros e He. by apply keys_in_order_listed.
Qed.

Lemma main_keeps_fieldnames_witness :
  let s0 := Machine (World [Sample.H; Sample.O] [] ["2"; "O"; ""] ∅) ∅ in
  covered (csv_fieldnames Sample.table)
    (m_world (main_turn (csv_fieldnames Sample.table) [Sample.nonmetals] s0).2).
Proof.
  intros s0.
  apply (proj1 (main_keeps_fieldnames (Some Sample.table) None s0)
           [Sample.nonmetals] s0).
  apply Forall_forall. intros e He key Hk%keys_of_map.
  cbn [s0 m_world w_elements] in He.
  repeat (apply elem_of_cons in He as [->|He]); [| |by apply elem_of_nil in He];
    vm_compute in Hk;
    repeat (apply elem_of_cons in Hk as [->|Hk]; [vm_compute; repeat constructor|]);
    by apply elem_of_nil in Hk.
Defined.

(** ** Single turns of the menu *)

Lemma run_input (prompt line : string) (rest : list string)
    (els : list (gmap string string)) (out : list string)
    (files : gmap string file_content) :
  input prompt (World els out (line :: rest) files) =
  (Ok line, World els (out ++ [prompt]) rest files).
Proof. reflexivity. Qed.

Lemma main_turn_choice (fieldnames : list string) (groups : list group)
    (choice : string) (rest : list string) (els : list (gmap string string))
    (out : list string) (files : gmap string file_content)
    (texts : gmap string string) :
  main_turn fieldnames groups (Machine (World els out (choice :: rest) files) texts) =
  main_choice fieldnames groups choice
    (Machine (World els (out ++ [Txt.menu +:+ Text.nl; Txt.choose]) rest files) texts).
Proof.
  unfold main_turn, display_menu. runT. unfold write_stdout.
  cbn [m_world m_texts w_elements w_stdout w_stdin w_files].
  rewrite run_input. runT. by rewrite <- app_assoc.
Qed.

Lemma run_next_turn (line : string) (rest : list string)
    (els : list (gmap string string)) (out : list string)
    (files : gmap string file_content) (texts : gmap string string) :
  next_turn (Machine (World els out (line :: rest) files) texts) =
  (Ok true, Machine (World els (out ++ [Txt.press_enter]) rest files) texts).
Proof. reflexivity. Qed.

(** X17.  A choice that is none of 0 to 6 changes nothing: the turn prints
    the menu, the invalid-choice text and the request for Enter, reads the
    choice and one more line, and the loop goes on with the collection and
    the files as they were. *)
Theorem main_loop_invalid_choice (turns : nat) (fieldnames : list string)
    (groups : list group) (choice enter : string) (rest : list string)
    (els : list (gmap string string)) (out : list string)
    (files : gmap string file_content) (texts : gmap string string) :
  choice ∉ ["0"; "1"; "2"; "3"; "4"; "5"; "6"] ->
  main_loop (S turns) fieldnames groups
    (Machine (World els out (choice :: enter :: rest) files) texts) =
  main_loop turns fieldnames groups
    (Machine (World els
                (out ++ [Txt.menu +:+ Text.nl; Txt.choose;
                         Txt.invalid_choice +:+ Text.nl; Txt.press_enter])
                rest files) texts).
Proof.
  intros Hchoice. cbn [main_loop]. rewrite main_turn_choice. unfold main_choice.
  repeat match goal with
         | |- context [String.eqb choice ?c] =>
             replace (String.eqb choice c) with false
               by (symmetry; apply String.eqb_neq; intros ->; apply Hchoice;
                   set_solver)
         end.
  runT. unfold write_stdout. cbn [m_world m_texts w_elements w_stdout w_stdin w_files].
  rewrite run_next_turn. by rewrite <- !app_assoc.
Qed.

Lemma main_loop_invalid_choice_witness :
  main_loop 2 [] []
    (Machine (World [Sample.bare] [] ["x"; ""; "more"] ∅) ∅) =
  main_loop 1 [] []
    (Machine (World [Sample.bare]
                ([] ++ [Txt.menu +:+ Text.nl; Txt.choose;
                        Txt.invalid_choice +:+ Text.nl; Txt.press_enter])
                ["more"] ∅) ∅).
Proof.
  apply (main_loop_invalid_choice 1 [] [] "x" "" ["more"] [Sample.bare] [] ∅ ∅).
  intros Hin. apply list_elem_of_In in Hin. cbn in Hin.
  repeat (destruct Hin as [Hin|Hin]; [discriminate Hin|]). exact Hin.
Defined.

(** X18.  In option 3 of the menu an invalid pair of criteria never reaches
    the collection.  When group and period are both entered, or both left
    empty, [main] prints its own diagnostic and goes on with the loop;
    [calculate_average_mass] is not called, so that nothing is raised even
    when elements lack the fields it would read. *)
Theorem main_loop_invalid_criteria (turns : nat) (fieldnames : list string)
    (groups : list group) (group period enter : string) (rest : list string)
    (els : list (gmap string string)) (out : list string)
    (files : gmap string file_content) (texts : gmap string string) :
  truthy (Some (Text.strip group)) = truthy (Some (Text.strip period)) ->
  main_loop (S turns) fieldnames groups
    (Machine (World els out ("3" :: group :: period :: enter :: rest) files) texts) =
  main_loop turns fieldnames groups
    (Machine (World els
                (out ++ [Txt.menu +:+ Text.nl; Txt.choose;
                         Txt.ask_group_number; Txt.ask_period_number;
                         (if truthy (Some (Text.strip group))
                          then Txt.both_entered else Txt.none_entered) +:+ Text.nl;
                         Txt.press_enter])
                rest files) texts).
Proof.
  intros Hsame. cbn [main_loop]. rewrite main_turn_choice. unfold main_choice.
  cbn [String.eqb Ascii.eqb Bool.eqb andb].
  runT. cbn [m_world m_texts]. rewrite run_input. runT.
  cbn [m_world m_texts]. rewrite run_input. runT. rewrite <- Hsame.
  destruct (truthy (Some (Text.strip group))); cbn [andb]; runT;
    unfold write_stdout; cbn [m_world m_texts w_elements w_stdout w_stdin w_files];
    rewrite run_next_turn; by rewrite <- !app_assoc.
Qed.

Lemma main_loop_invalid_criteria_witness :
  main_loop 2 [] []
    (Machine (World [Sample.bare] [] ["3"; " 1"; "2 "; ""; "0"] ∅) ∅) =
  main_loop 1 [] []
    (Machine (World [Sample.bare]
                ([] ++ [Txt.menu +:+ Text.nl; Txt.choose;
                        Txt.ask_group_number; Txt.ask_period_number;
                        (if truthy (Some (Text.strip " 1"))
                         then Txt.both_entered else Txt.none_entered) +:+ Text.nl;
                        Txt.press_enter])
                ["0"] ∅) ∅).
Proof.
  apply (main_loop_invalid_criteria 1 [] [] " 1" "2 " "" ["0"] [Sample.bare] [] ∅ ∅).
  reflexivity.
Defined.

(** X19.  The choice 0 ends the loop at once: the menu and the farewell are
    printed, [main] returns, and the collection, the files and the lines of
    input after the choice are left as they were. *)
Theorem main_loop_quit (turns : nat) (fieldnames : list string)
    (groups : list group) (rest : list string)
    (els : list (gmap string string)) (out : list string)
    (files : gmap string file_content) (texts : gmap string string) :
  main_loop (S turns) fieldnames groups
    (Machine (World els out ("0" :: rest) files) texts) =
  Some (Ok tt,
        Machine (World els
                   (out ++ [Txt.menu +:+ Text.nl; Txt.choose;
                            Txt.goodbye +:+ Text.nl])
                   rest files) texts).
Proof.
  cbn [main_loop]. rewrite main_turn_choice. unfold main_choice.
  cbn [String.eqb Ascii.eqb Bool.eqb andb]. runT. unfold write_stdout.
  cbn [m_world m_texts w_elements w_stdout w_stdin w_files].
  by rewrite <- !app_assoc.
Qed.
